(** * The code-block micro-interpreter of the prompt template engine

    A shallow embedding of
    [python/semantic_kernel/template_engine/blocks/code_block.py]:
    the grammar check run when a [CodeBlock] is built ([check_tokens]),
    and the render path ([render_code], [_render_function_call],
    [_enrich_function_arguments], [_get_function_from_plugin_collection]).

    Python names are kept, leading underscores included; record fields get
    a short prefix where two records share a field name.  The warning that
    [check_tokens] logs is part of its result; the [logger.debug] and
    [logger.error] calls of the render path change nothing that is returned
    or raised and are left out. *)

From stdpp Require Import base option list strings gmap.

Open Scope string_scope.
Open Scope nat_scope.

(** ** Tokens *)

(** The members of [BlockTypes] that [code_block.py] names. *)
Inductive BlockTypes := CODE | VALUE | VARIABLE | FUNCTION_ID | NAMED_ARG.

#[global] Instance BlockTypes_eq_dec : EqDecision BlockTypes.
Proof. solve_decision. Defined.

(** Modelled from the spec: the block classes behind [List[Block]]
    (value, variable, named-argument and function-id blocks) are not in
    [code_block.py].  Section 3 of the specification gives the token as a
    closed variant of four shapes, a named argument carrying a nested
    value or variable. *)
Inductive Operand :=
| OpValue (content : string)
| OpVariable (name : string).

Inductive Token :=
| ValBlock (content : string)
| VarBlock (name : string)
| NamedArgBlock (name : string) (inner : Operand)
| FunctionIdBlock (plugin_name : option string) (function_name : string).

(** [token.type] *)
Definition token_type (t : Token) : BlockTypes :=
  match t with
  | ValBlock _ => VALUE
  | VarBlock _ => VARIABLE
  | NamedArgBlock _ _ => NAMED_ARG
  | FunctionIdBlock _ _ => FUNCTION_ID
  end.

Definition VALID_ARG_TYPES : list BlockTypes := [VALUE; VARIABLE; NAMED_ARG].

(** ** Construction: [check_tokens] *)

(** The four [raise CodeBlockTokenError(...)] sites of [check_tokens], in
    source order.  The last two messages print the offending [token.type]. *)
Inductive CodeBlockTokenError :=
| EmptySequence
| LeadingNamedArg
| InvalidSecondToken (got : BlockTypes)
| ExpectedNamedArg (got : BlockTypes).

(** What [logger.warning] receives in [check_tokens]. *)
Inductive LogRecord :=
| TrailingTokensIgnored.

(** The body of [for index, token in enumerate(tokens)], started at [index]
    on the remaining tokens [rest]; [tokens] is the whole list, which the
    loop body reads through [len(tokens)] and which is returned when the
    loop runs to its end. *)
Fixpoint check_tokens_loop (tokens : list Token) (index : nat) (rest : list Token)
  : list LogRecord * (CodeBlockTokenError + list Token) :=
  match rest with
  | [] => ([], inr tokens)
  | token :: rest' =>
      if (index =? 0)%nat && bool_decide (token_type token = NAMED_ARG) then
        ([], inl LeadingNamedArg)
      else if (index =? 0)%nat && bool_decide (token_type token ∈ [VALUE; VARIABLE]) then
        (if (1 <? length tokens)%nat then [TrailingTokensIgnored] else [], inr [token])
      else if (index =? 1)%nat && negb (bool_decide (token_type token ∈ VALID_ARG_TYPES)) then
        ([], inl (InvalidSecondToken (token_type token)))
      else if (1 <? index)%nat && negb (bool_decide (token_type token = NAMED_ARG)) then
        ([], inl (ExpectedNamedArg (token_type token)))
      else check_tokens_loop tokens (S index) rest'
  end.

(** The field validator: its return value becomes the block's [tokens]. *)
Definition check_tokens (tokens : list Token)
  : list LogRecord * (CodeBlockTokenError + list Token) :=
  match tokens with
  | [] => ([], inl EmptySequence)
  | _ => check_tokens_loop tokens 0 tokens
  end.

(** A [CodeBlock] that exists has passed [check_tokens]; its [tokens] field
    holds what the validator returned. *)
Record CodeBlock := { tokens : list Token }.

(** [CodeBlock(tokens=...)]: the diagnostics emitted, and the block or the
    error.  The tokens are given, so [parse_content] returns its fields
    unchanged and the tokenizer is not run. *)
Definition parse (toks : list Token)
  : list LogRecord * (CodeBlockTokenError + CodeBlock) :=
  let '(log, r) := check_tokens toks in
  (log, match r with
        | inl e => inl e
        | inr ts => inr {| tokens := ts |}
        end).

(** ** Arguments, functions and the plugin collection *)

(** [KernelArguments] is a [dict] keyed by argument name; its values are
    the strings that blocks render to (specification, section 3). *)
Abbreviation KernelArguments := (gmap string string).

(** [function.metadata]: the fields the code block reads.  [fm_parameters]
    lists [parameter.name] for each declared parameter, in order. *)
Record KernelFunctionMetadata := {
  fm_plugin_name : string;
  fm_name : string;
  fm_parameters : list string
}.

(** The error object a function stores in its result's metadata. *)
Definition Exception := string.

(** What [_render_function_call] observes of the object that
    [function.invoke] returns: [str(result)], its truth value, and the
    (truthy) entry under ["error"] in [result.metadata], if any. *)
Record FunctionResult := {
  result_str : string;
  result_bool : bool;
  result_error : option Exception
}.

(** A registered function.  [invoke] returns a result object and works on
    the arguments object it is handed, which it may update; the kernel it
    also receives is left out of the signature (a function closes over
    what it needs from it). *)
Record KernelFunction := {
  metadata : KernelFunctionMetadata;
  invoke : KernelArguments → FunctionResult * KernelArguments
}.

(** A plugin: its name and its functions by name ([name in plugin],
    [plugin[name]]). *)
Record KernelPlugin := {
  kp_name : string;
  kp_functions : gmap string KernelFunction
}.

(** The plugin collection, in registration order (the order in which
    [for plugin in plugins] visits it). *)
Abbreviation KernelPluginCollection := (list KernelPlugin).

(** Modelled from the spec: the kernel class and the truth value of its
    plugin collection are not in [code_block.py].  Section 4.2, step 1,
    requires the registry to be present and non-empty: [kernel.plugins] is
    optional, and [not kernel.plugins] holds when it is [None] or empty. *)
Record Kernel := { plugins : option KernelPluginCollection }.

(** ** Errors *)

(** The [raise CodeBlockRenderError(...)] sites of the render path, named
    as in section 7 of the specification. *)
Inductive RenderErrorKind :=
| NoRegistry
| FunctionNotFound (plugin_name : option string) (function_name : string)
| ArityMismatch (md : KernelFunctionMetadata) (given : nat)
| InvocationFailed (md : KernelFunctionMetadata) (exc : Exception).

(** What a render can raise.  [KeyError] is raised by a subscript whose
    key is missing, and carries the key; [AttributeError] and [IndexError]
    arise only on token lists that [check_tokens] rejects. *)
Inductive Exn :=
| CodeBlockRenderError (kind : RenderErrorKind)
| KeyError (key : string)
| AttributeError
| IndexError.

(** ** Looking a function up *)

(** [plugins[name]], the subscript of the name-keyed plugin collection: the
    plugin registered under the name, and [KeyError] when there is none.
    The subscript is a lookup that fails on a missing key, which is why the
    scan branch of [_get_function_from_plugin_collection] tests [in] before
    it subscripts and why the file writes [.get("error", None)] where it
    wants an optional lookup. *)
Definition plugins_getitem (ps : KernelPluginCollection) (name : string)
  : Exn + KernelPlugin :=
  match List.find (λ p, bool_decide (kp_name p = name)) ps with
  | Some plugin => inr plugin
  | None => inl (KeyError name)
  end.

(** [plugin[name]]: the function of that name, and [KeyError] when the
    plugin has none. *)
Definition plugin_getitem (p : KernelPlugin) (name : string)
  : Exn + KernelFunction :=
  match kp_functions p !! name with
  | Some f => inr f
  | None => inl (KeyError name)
  end.

(** [name in plugin] *)
Definition plugin_contains (p : KernelPlugin) (name : string) : bool :=
  bool_decide (is_Some (kp_functions p !! name)).

(** The [else] branch of [_get_function_from_plugin_collection]:
    [for plugin in plugins: if function_name in plugin: return plugin[...]],
    and [return None] when the loop runs out. *)
Fixpoint scan_plugins (ps : KernelPluginCollection) (function_name : string)
  : Exn + option KernelFunction :=
  match ps with
  | [] => inr None
  | plugin :: rest =>
      if plugin_contains plugin function_name then
        match plugin_getitem plugin function_name with
        | inl e => inl e
        | inr f => inr (Some f)
        end
      else scan_plugins rest function_name
  end.

(** [function_block] is passed as the two attributes the method reads.
    The qualified branch is the two bare subscripts of line 172: a miss at
    either raises. *)
Definition _get_function_from_plugin_collection
    (ps : KernelPluginCollection)
    (plugin_name : option string) (function_name : string)
  : Exn + option KernelFunction :=
  match plugin_name with
  | Some pn =>
      if (0 <? String.length pn)%nat then
        match plugins_getitem ps pn with
        | inl e => inl e
        | inr plugin =>
            match plugin_getitem plugin function_name with
            | inl e => inl e
            | inr f => inr (Some f)
            end
        end
      else scan_plugins ps function_name
  | None => scan_plugins ps function_name
  end.

(** ** Rendering a token *)

(** Modelled from the spec: the blocks' [render] methods are not in
    [code_block.py].  Sections 4.2 and 4.3: a value renders to its content,
    a variable to [bindings.get(name)], the empty string if absent; a named
    argument renders its inner value or variable.  The kernel that
    [render] also receives plays no part.  A function id renders to its
    text; no block that passed [check_tokens] renders one. *)
Definition operand_render (o : Operand) (arguments : KernelArguments) : string :=
  match o with
  | OpValue c => c
  | OpVariable n => default "" (arguments !! n)
  end.

Definition token_render (t : Token) (arguments : KernelArguments) : string :=
  match t with
  | ValBlock c => c
  | VarBlock n => default "" (arguments !! n)
  | NamedArgBlock _ o => operand_render o arguments
  | FunctionIdBlock (Some pn) fn => pn ++ "." ++ fn
  | FunctionIdBlock None fn => fn
  end.

(** [token.name]: named arguments and variables have one. *)
Definition token_name (t : Token) : option string :=
  match t with
  | NamedArgBlock n _ => Some n
  | VarBlock n => Some n
  | ValBlock _ | FunctionIdBlock _ _ => None
  end.

(** ** The store of arguments objects, and the render monad *)

(** Arguments objects are mutable and passed by reference: a store holds
    the contents of each, a reference is its position in the store. *)
Definition loc := nat.
Abbreviation Store := (list (gmap string string)).

(** A computation reads and updates the store and returns or raises;
    updates made before a raise stay in the store. *)
Definition M (A : Type) : Type := Store → (Exn + A) * Store.

#[global] Instance M_ret : MRet M := λ A a σ, (inr a, σ).

#[global] Instance M_bind : MBind M := λ A B f m σ,
  match m σ with
  | (inl e, σ') => (inl e, σ')
  | (inr a, σ') => f a σ'
  end.

Definition raise {A} (e : Exn) : M A := λ σ, (inl e, σ).

(** The contents of the object at [a]. *)
Definition contents (σ : Store) (a : loc) : gmap string string :=
  default ∅ (σ !! a).

Definition deref (a : loc) : M KernelArguments := λ σ, (inr (contents σ a), σ).

(** [arguments[k] = v] *)
Definition setitem (a : loc) (k v : string) : M unit :=
  λ σ, (inr (), <[a := <[k := v]> (contents σ a)]> σ).

(** [copy(arguments)]: a new object with the same entries. *)
Definition copy (a : loc) : M loc :=
  λ σ, (inr (length σ), (σ ++ [contents σ a])%list).

(** [token.render(kernel, arguments)] *)
Definition render (t : Token) (arguments : loc) : M string :=
  args ← deref arguments; mret (token_render t args).

(** [function.invoke(kernel, arguments)]: the function works on the object
    it is handed. *)
Definition call_invoke (f : KernelFunction) (arguments : loc) : M FunctionResult :=
  λ σ, let '(r, m) := invoke f (contents σ arguments) in (inr r, <[arguments := m]> σ).

(** ** [_enrich_function_arguments] *)

(** The loop [for index, token in enumerate(self.tokens[1:], start=1)];
    [p0] is [function_metadata.parameters[0].name]. *)
Fixpoint enrich_loop (p0 : string) (arguments : loc) (index : nat) (rest : list Token)
  : M unit :=
  match rest with
  | [] => mret ()
  | token :: rest' =>
      rendered_value ← render token arguments;
      (if negb (bool_decide (token_type token = NAMED_ARG)) && (index =? 1)%nat then
         setitem arguments p0 rendered_value
       else
         match token_name token with
         | Some n => setitem arguments n rendered_value
         | None => raise AttributeError
         end);;
      enrich_loop p0 arguments (S index) rest'
  end.

Definition _enrich_function_arguments (self : CodeBlock) (kernel : Kernel)
    (arguments : loc) (function_metadata : KernelFunctionMetadata) : M loc :=
  match fm_parameters function_metadata with
  | [] =>
      raise (CodeBlockRenderError
               (ArityMismatch function_metadata (length (tokens self) - 1)))
  | p0 :: _ =>
      enrich_loop p0 arguments 1 (drop 1 (tokens self));;
      mret arguments
  end.

(** ** [_render_function_call] and [render_code] *)

Definition _render_function_call (self : CodeBlock) (kernel : Kernel)
    (arguments : loc) : M string :=
  match plugins kernel with
  | None | Some [] => raise (CodeBlockRenderError NoRegistry)
  | Some ps =>
      match tokens self with
      | [] => raise IndexError
      | FunctionIdBlock plugin_name function_name :: _ =>
          match _get_function_from_plugin_collection ps plugin_name function_name with
          | inl e => raise e
          | inr None =>
              raise (CodeBlockRenderError (FunctionNotFound plugin_name function_name))
          | inr (Some function) =>
              arguments_clone ← copy arguments;
              arguments_clone ←
                (if (1 <? length (tokens self))%nat then
                   _enrich_function_arguments self kernel arguments_clone
                     (metadata function)
                 else mret arguments_clone);
              result ← call_invoke function arguments_clone;
              match result_error result with
              | Some exc =>
                  raise (CodeBlockRenderError
                           (InvocationFailed (metadata function) exc))
              | None =>
                  mret (if result_bool result then result_str result else "")
              end
          end
      | _ :: _ => raise AttributeError
      end
  end.

Definition render_code (self : CodeBlock) (kernel : Kernel) (arguments : loc)
  : M string :=
  match tokens self with
  | [] => raise IndexError
  | token0 :: _ =>
      if bool_decide (token_type token0 = FUNCTION_ID) then
        _render_function_call self kernel arguments
      else
        render token0 arguments
  end.

(** * Definitions used in the statements *)

(** The shape that section 4.1 of the specification calls legal, stated
    in the specification's own terms. *)
Definition spec_grammar (toks : list Token) : Prop :=
  toks ≠ [] ∧
  (∀ t, toks !! 0 = Some t → token_type t ≠ NAMED_ARG) ∧
  (∀ f, toks !! 0 = Some f → token_type f = FUNCTION_ID →
     (∀ t, toks !! 1 = Some t → token_type t ∈ VALID_ARG_TYPES) ∧
     (∀ i t, 1 < i → toks !! i = Some t → token_type t = NAMED_ARG)).

(** [token.type != BlockTypes.NAMED_ARG] *)
Definition not_named (t : Token) : bool :=
  negb (bool_decide (token_type t = NAMED_ARG)).

(** The binder in the words of section 4.3: the first extra token goes
    under the first declared parameter unless it is a named argument; a
    named argument goes under its own name.  Each value is rendered against
    the bindings as they stand when its token is reached. *)
Definition arg_key (p0 : string) (t : Token) : string :=
  match t with
  | NamedArgBlock n _ => n
  | _ => p0
  end.

(** One write of the binder: the token's rendering against the current
    bindings, under the token's key. *)
Definition bind_step (p0 : string) (m : gmap string string) (t : Token)
  : gmap string string :=
  <[arg_key p0 t := token_render t m]> m.

(** The bindings after the writes for all the extra tokens, left to right. *)
Definition spec_bind (p0 : string) (extras : list Token) (m : gmap string string)
  : gmap string string :=
  foldl (bind_step p0) m extras.

(** The extra tokens of a function call that [check_tokens] accepts. *)
Definition valid_extras (extras : list Token) : Prop :=
  match extras with
  | [] => True
  | t1 :: rest =>
      token_type t1 ∈ VALID_ARG_TYPES ∧ Forall (λ t, token_type t = NAMED_ARG) rest
  end.

(** Lines 127-129 of [_render_function_call]: clone, then bind. *)
Definition bind_phase (self : CodeBlock) (kernel : Kernel)
    (function : KernelFunction) (arguments : loc) : M loc :=
  arguments_clone ← copy arguments;
  if 1 <? length (tokens self) then
    _enrich_function_arguments self kernel arguments_clone (metadata function)
  else mret arguments_clone.

(** Lines 132-135: what a returned result turns into. *)
Definition result_outcome (md : KernelFunctionMetadata) (r : FunctionResult)
  : Exn + string :=
  match result_error r with
  | Some exc => inl (CodeBlockRenderError (InvocationFailed md exc))
  | None => inr (if result_bool r then result_str r else "")
  end.

(** An [add(a, b)] that reports the two arguments it was invoked with. *)
Definition add_function : KernelFunction :=
  {| metadata := {| fm_plugin_name := "math"; fm_name := "add";
                    fm_parameters := ["a"; "b"] |};
     invoke := λ m,
       ({| result_str := default "?" (m !! "a") ++ "+" ++ default "?" (m !! "b");
           result_bool := true;
           result_error := None |}, m) |}.

(** A kernel whose only plugin, [math], holds [add]. *)
Definition math_kernel : Kernel :=
  {| plugins := Some [{| kp_name := "math";
                         kp_functions := {[ "add" := add_function ]} |}] |}.

(** The call [add "2", b="3"]. *)
Definition add_call : list Token :=
  [FunctionIdBlock None "add"; ValBlock "2"; NamedArgBlock "b" (OpValue "3")].

(** A function without parameters. *)
Definition noop_function : KernelFunction :=
  {| metadata := {| fm_plugin_name := "util"; fm_name := "noop";
                    fm_parameters := [] |};
     invoke := λ m,
       ({| result_str := "done"; result_bool := true; result_error := None |}, m) |}.

(** A kernel whose only plugin, [util], holds [noop]. *)
Definition util_kernel : Kernel :=
  {| plugins := Some [{| kp_name := "util";
                         kp_functions := {[ "noop" := noop_function ]} |}] |}.

(** A function whose result carries an error. *)
Definition failing_function : KernelFunction :=
  {| metadata := {| fm_plugin_name := "util"; fm_name := "fail";
                    fm_parameters := ["input"] |};
     invoke := λ m,
       ({| result_str := "partial"; result_bool := true;
           result_error := Some "boom" |}, m) |}.

(** A kernel whose only plugin, [util], holds [fail]. *)
Definition failing_kernel : Kernel :=
  {| plugins := Some [{| kp_name := "util";
                         kp_functions := {[ "fail" := failing_function ]} |}] |}.

(** A computation that leaves every object other than [c] as it was. *)
Definition writes_only {A} (c : loc) (m : M A) : Prop :=
  ∀ σ l, l ≠ c → (m σ).2 !! l = σ !! l.

(** The name a token looks up in the bindings when it is rendered, if any. *)
Definition reads (t : Token) : option string :=
  match t with
  | VarBlock n => Some n
  | NamedArgBlock _ (OpVariable n) => Some n
  | _ => None
  end.

(** A write whose value is rendered against fixed bindings [m0]. *)
Definition static_step (p0 : string) (m0 acc : gmap string string) (t : Token)
  : gmap string string :=
  <[arg_key p0 t := token_render t m0]> acc.

(** A kernel with two plugins that both hold a function named [add]:
    [text], registered first, then [math]. *)
Definition concat_function : KernelFunction :=
  {| metadata := {| fm_plugin_name := "text"; fm_name := "add";
                    fm_parameters := ["input"] |};
     invoke := λ m,
       ({| result_str := default "" (m !! "input") ++ "!";
           result_bool := true;
           result_error := None |}, m) |}.

Definition two_plugin_kernel : Kernel :=
  {| plugins := Some [{| kp_name := "text";
                         kp_functions := {[ "add" := concat_function ]} |};
                      {| kp_name := "math";
                         kp_functions := {[ "add" := add_function ]} |}] |}.

(** The errors of a failed attribute access or list index. *)
Definition python_error (e : Exn) : Prop :=
  e = AttributeError ∨ e = IndexError.

(** The bindings a resolved function is invoked on: the caller's, with the
    binder's writes when the call has extra tokens. *)
Definition invoked_with (f : KernelFunction) (extras : list Token)
    (m : gmap string string) : gmap string string :=
  match fm_parameters (metadata f) with
  | p0 :: _ => spec_bind p0 extras m
  | [] => m
  end.

(** The outcome of rendering a function call, step by step as
    [_render_function_call] decides it. *)
Definition call_outcome (kernel : Kernel) (pn : option string) (fn : string)
    (extras : list Token) (m : gmap string string) : Exn + string :=
  match plugins kernel with
  | None | Some [] => inl (CodeBlockRenderError NoRegistry)
  | Some ps =>
      match _get_function_from_plugin_collection ps pn fn with
      | inl err => inl err
      | inr None => inl (CodeBlockRenderError (FunctionNotFound pn fn))
      | inr (Some f) =>
          match extras, fm_parameters (metadata f) with
          | _ :: _, [] =>
              inl (CodeBlockRenderError (ArityMismatch (metadata f) (length extras)))
          | _, _ =>
              result_outcome (metadata f) (invoke f (invoked_with f extras m)).1
          end
      end
  end.

(** * Properties *)

(** ** The grammar enforced at construction *)

(** From index 2 on the loop only looks for a token that is not a named
    argument. *)
Lemma check_tokens_loop_tail (toks : list Token) (i : nat) (rest : list Token) :
  2 ≤ i →
  check_tokens_loop toks i rest =
    match List.find not_named rest with
    | Some t => ([], inl (ExpectedNamedArg (token_type t)))
    | None => ([], inr toks)
    end.
Proof.
  revert i. induction rest as [|t rest IH]; intros i Hi; simpl; [done|].
  destruct i as [|[|i]]; [lia|lia|]. simpl.
  unfold not_named at 1.
  destruct (bool_decide (token_type t = NAMED_ARG)) eqn:E; simpl.
  - apply IH. lia.
  - done.
Qed.

(** [check_tokens] by cases on the shape of the list. *)
Lemma check_tokens_cases (toks : list Token) :
  (check_tokens toks).2 =
    match toks with
    | [] => inl EmptySequence
    | NamedArgBlock _ _ :: _ => inl LeadingNamedArg
    | ValBlock c :: _ => inr [ValBlock c]
    | VarBlock n :: _ => inr [VarBlock n]
    | FunctionIdBlock _ _ :: [] => inr toks
    | FunctionIdBlock _ _ :: t1 :: rest =>
        if bool_decide (token_type t1 ∈ VALID_ARG_TYPES) then
          match List.find not_named rest with
          | Some t => inl (ExpectedNamedArg (token_type t))
          | None => inr toks
          end
        else inl (InvalidSecondToken (token_type t1))
    end.
Proof.
  destruct toks as [|t0 rest]; [done|].
  destruct t0; try done.
  destruct rest as [|t1 rest]; [done|].
  unfold check_tokens. cbn -[bool_decide VALID_ARG_TYPES].
  destruct (bool_decide (token_type t1 ∈ VALID_ARG_TYPES)); simpl; [|done].
  rewrite check_tokens_loop_tail by lia. by destruct (List.find _ _).
Qed.

Lemma not_named_true (t : Token) : not_named t = true ↔ token_type t ≠ NAMED_ARG.
Proof.
  unfold not_named. rewrite negb_true_iff, bool_decide_eq_false. done.
Qed.

Lemma find_not_named_None (rest : list Token) :
  List.find not_named rest = None ↔
  ∀ i t, rest !! i = Some t → token_type t = NAMED_ARG.
Proof.
  induction rest as [|x rest IH]; simpl.
  - split; [intros _ i t Hi; by destruct i | done].
  - destruct (not_named x) eqn:E.
    + split; [done|]. intros H. apply not_named_true in E.
      destruct E. by apply (H 0).
    + rewrite IH. split.
      * intros H [|i] t Hi; simpl in Hi; [|by eapply H].
        injection Hi as <-. destruct (decide (token_type x = NAMED_ARG)) as [|Hn]; [done|].
        apply not_named_true in Hn. congruence.
      * intros H i t Hi. by apply (H (S i)).
Qed.

Lemma find_not_named_Some (rest : list Token) (t : Token) :
  List.find not_named rest = Some t → token_type t ≠ NAMED_ARG.
Proof. intros [_ H]%List.find_some. by apply not_named_true. Qed.

Lemma parse_snd (toks : list Token) :
  (parse toks).2 =
    match (check_tokens toks).2 with
    | inl e => inl e
    | inr ts => inr {| tokens := ts |}
    end.
Proof. unfold parse. by destruct (check_tokens toks). Qed.

(** C1. [parse] yields a block exactly on the token lists of the grammar:
    non-empty, not led by a named argument, and, when led by a function id,
    with a value, variable or named argument second (if any) and only named
    arguments after it.  Every other list is refused with the error of its
    first violation: [EmptySequence], [LeadingNamedArg],
    [InvalidSecondToken], [ExpectedNamedArg]; the result is then an error
    and no block. *)
Theorem parse_accepts_exactly_the_grammar (toks : list Token) :
  ((∃ e, (parse toks).2 = inr e) ↔ spec_grammar toks) ∧
  (toks = [] → (parse toks).2 = inl EmptySequence) ∧
  (∀ t, toks !! 0 = Some t → token_type t = NAMED_ARG →
     (parse toks).2 = inl LeadingNamedArg) ∧
  (∀ f t, toks !! 0 = Some f → token_type f = FUNCTION_ID →
     toks !! 1 = Some t → token_type t ∉ VALID_ARG_TYPES →
     (parse toks).2 = inl (InvalidSecondToken (token_type t))) ∧
  (∀ f, toks !! 0 = Some f → token_type f = FUNCTION_ID →
     (∀ t, toks !! 1 = Some t → token_type t ∈ VALID_ARG_TYPES) →
     (∃ i t, 1 < i ∧ toks !! i = Some t ∧ token_type t ≠ NAMED_ARG) →
     ∃ got, got ≠ NAMED_ARG ∧ (parse toks).2 = inl (ExpectedNamedArg got)).
Proof.
  rewrite parse_snd, check_tokens_cases.
  destruct toks as [|t0 rest].
  { split_and!; [|done|done|done|done].
    split; [by intros [e He] | by intros [H _]]. }
  destruct t0 as [c|n|n o|pn fn].
  - (* value first *)
    split_and!; [|done|by intros t [= <-]|by intros f t [= <-]|by intros f [= <-]].
    split; [intros _|by eauto].
    split_and!; [done|by intros t [= <-]|by intros f [= <-]].
  - (* variable first *)
    split_and!; [|done|by intros t [= <-]|by intros f t [= <-]|by intros f [= <-]].
    split; [intros _|by eauto].
    split_and!; [done|by intros t [= <-]|by intros f [= <-]].
  - (* named argument first *)
    split_and!; [|done|done|by intros f t [= <-]|by intros f [= <-]].
    split; [by intros [e He]|].
    intros (_ & H & _). by destruct (H (NamedArgBlock n o)).
  - (* function id first *)
    destruct rest as [|t1 rest].
    { split_and!; [|done|by intros t [= <-]|done|].
      - split; [intros _|by eauto].
        split_and!; [done|by intros t [= <-]|].
        intros f _ _. split; [by intros t [=]|].
        intros [|[|i]] t Hi Ht; [lia|lia|done].
      - intros f _ _ _ (i & t & Hi & Ht & _).
        destruct i as [|[|i]]; [lia|lia|done]. }
    destruct (bool_decide (token_type t1 ∈ VALID_ARG_TYPES)) eqn:E1.
    + apply bool_decide_eq_true in E1.
      destruct (List.find not_named rest) as [bad|] eqn:Ef.
      * pose proof (find_not_named_Some _ _ Ef) as Hbad.
        apply List.find_some in Ef as [Hin _].
        apply list_elem_of_In, list_elem_of_lookup in Hin as [j Hj].
        split_and!; [|done|by intros t [= <-]|by intros f t _ _ [= <-]|by eauto].
        split; [by intros [e He]|].
        intros (_ & _ & H).
        destruct (H _ eq_refl eq_refl) as [_ H2].
        destruct Hbad. by apply (H2 (S (S j))); [lia|].
      * assert (Hall := proj1 (find_not_named_None rest) Ef).
        split_and!; [|done|by intros t [= <-]|by intros f t _ _ [= <-]|].
        -- split; [intros _|by eauto].
           split_and!; [done|by intros t [= <-]|].
           intros f _ _. split; [by intros t [= <-]|].
           intros [|[|i]] t Hi Ht; [lia|lia|]. by eapply Hall.
        -- intros f _ _ _ (i & t & Hi & Ht & Hn).
           destruct i as [|[|i]]; [lia|lia|]. destruct Hn. by eapply Hall.
    + apply bool_decide_eq_false in E1.
      split_and!; [|done|by intros t [= <-]|by intros f t _ _ [= <-]|].
      * split; [by intros [e He]|].
        intros (_ & _ & H). destruct (H _ eq_refl eq_refl) as [H1 _].
        destruct E1. by apply H1.
      * intros f _ _ H. destruct E1. by apply H.
Qed.

(** ** A leading value or variable *)

Lemma operand_type (t : Token) :
  token_type t ∈ [VALUE; VARIABLE] →
  token_type t = VALUE ∨ token_type t = VARIABLE.
Proof.
  intros H. apply elem_of_cons in H as [H|H]; [by left|].
  apply elem_of_cons in H as [H|H]; [by right|]. by apply elem_of_nil in H.
Qed.

Lemma check_tokens_fst_operand (t0 : Token) (rest : list Token) :
  token_type t0 ∈ [VALUE; VARIABLE] →
  check_tokens (t0 :: rest) =
    (if 1 <? length (t0 :: rest) then [TrailingTokensIgnored] else [], inr [t0]).
Proof.
  intros Ht. unfold check_tokens. cbn [check_tokens_loop Nat.eqb andb].
  rewrite (bool_decide_eq_true_2 _ Ht).
  destruct t0; try done.
  all: by destruct (operand_type _ Ht).
Qed.

(** C4, as the code has it.  When the first token is a value or a variable
    and more tokens follow, [parse] succeeds, emits the one warning, and
    the block it yields holds the first token alone: the trailing tokens
    are dropped at construction. *)
Theorem parse_operand_first_keeps_only_it (t0 : Token) (rest : list Token) :
  token_type t0 ∈ [VALUE; VARIABLE] →
  rest ≠ [] →
  parse (t0 :: rest) = ([TrailingTokensIgnored], inr {| tokens := [t0] |}).
Proof.
  intros Ht Hrest. unfold parse. rewrite check_tokens_fst_operand by done.
  by destruct rest.
Qed.

Lemma parse_operand_first_keeps_only_it_witness :
  token_type (ValBlock "hi") ∈ [VALUE; VARIABLE] ∧
  [VarBlock "x"] ≠ [] ∧
  parse [ValBlock "hi"; VarBlock "x"] =
    ([TrailingTokensIgnored], inr {| tokens := [ValBlock "hi"] |}).
Proof.
  split; [apply list_elem_of_here|].
  split; [discriminate|].
  apply (parse_operand_first_keeps_only_it (ValBlock "hi") [VarBlock "x"]).
  - apply list_elem_of_here.
  - discriminate.
Defined.

(** C4, as stated, fails: the block built from a value followed by a
    variable does not retain the variable. *)
Lemma parse_does_not_retain_trailing_tokens :
  (parse [ValBlock "hi"; VarBlock "x"]).2 = inr {| tokens := [ValBlock "hi"] |} ∧
  ¬ (∃ e, (parse [ValBlock "hi"; VarBlock "x"]).2 = inr e ∧
          tokens e = [ValBlock "hi"; VarBlock "x"]).
Proof.
  split; [reflexivity|].
  intros (e & He & Hts). cbv in He. injection He as <-. discriminate.
Qed.

(** What [parse] yields when a value or variable leads. *)
Lemma parse_operand_first (toks : list Token) (e : CodeBlock) (t0 : Token) :
  (parse toks).2 = inr e →
  toks !! 0 = Some t0 →
  token_type t0 ∈ [VALUE; VARIABLE] →
  tokens e = [t0].
Proof.
  intros He H0 Ht. destruct toks as [|t rest]; [done|].
  injection H0 as ->. unfold parse in He.
  rewrite check_tokens_fst_operand in He by done.
  simpl in He. by injection He as <-.
Qed.

Lemma render_code_operand (t0 : Token) (kernel : Kernel) (a : loc) (σ : Store) :
  token_type t0 ∈ [VALUE; VARIABLE] →
  render_code {| tokens := [t0] |} kernel a σ =
    (inr (token_render t0 (contents σ a)), σ).
Proof.
  intros Ht. unfold render_code. cbn [tokens].
  rewrite bool_decide_eq_false_2; [done|].
  intros E. destruct (operand_type _ Ht); congruence.
Qed.

(** C8. When the first token is a value or a variable, [render_code]
    returns that token's own rendering, whatever else the token list held:
    a value gives its content for any bindings, a variable gives the value
    bound to its name, the empty string when there is none.  The store is
    left as it was. *)
Theorem render_code_first_operand
    (toks : list Token) (e : CodeBlock) (t0 : Token)
    (kernel : Kernel) (a : loc) (σ : Store) :
  (parse toks).2 = inr e →
  toks !! 0 = Some t0 →
  token_type t0 ∈ [VALUE; VARIABLE] →
  render_code e kernel a σ = (inr (token_render t0 (contents σ a)), σ) ∧
  (∀ c, t0 = ValBlock c → (render_code e kernel a σ).1 = inr c) ∧
  (∀ n, t0 = VarBlock n →
     (render_code e kernel a σ).1 = inr (default "" (contents σ a !! n))).
Proof.
  intros He H0 Ht.
  pose proof (parse_operand_first _ _ _ He H0 Ht) as Hts.
  destruct e as [ts]. simpl in Hts. subst ts.
  rewrite render_code_operand by done.
  split_and!; [done| |]; by intros ? ->.
Qed.

Lemma render_code_first_operand_witness :
  (parse [ValBlock "hi"; VarBlock "x"]).2 = inr {| tokens := [ValBlock "hi"] |} ∧
  (render_code {| tokens := [ValBlock "hi"] |} {| plugins := None |} 0
     [{[ "x" := "there" ]}]).1 = inr "hi".
Proof.
  split; [reflexivity|].
  apply (render_code_first_operand [ValBlock "hi"; VarBlock "x"]
           {| tokens := [ValBlock "hi"] |} (ValBlock "hi")
           {| plugins := None |} 0 [{[ "x" := "there" ]}]);
    [reflexivity | reflexivity | apply list_elem_of_here | reflexivity].
Defined.

(** C10. When the first token is a value or a variable, [render_code]
    never looks at the plugin collection: it returns a string, and the same
    one, for every kernel, one without plugins or with an empty collection
    included; it fails neither with [NoRegistry] nor with
    [FunctionNotFound]. *)
Theorem render_code_operand_ignores_registry
    (toks : list Token) (e : CodeBlock) (t0 : Token)
    (kernel : Kernel) (a : loc) (σ : Store) :
  (parse toks).2 = inr e →
  toks !! 0 = Some t0 →
  token_type t0 ∈ [VALUE; VARIABLE] →
  (∃ s, (render_code e kernel a σ).1 = inr s) ∧
  render_code e kernel a σ = render_code e {| plugins := None |} a σ ∧
  render_code e kernel a σ = render_code e {| plugins := Some [] |} a σ ∧
  (render_code e kernel a σ).1 ≠ inl (CodeBlockRenderError NoRegistry) ∧
  (∀ pn fn, (render_code e kernel a σ).1 ≠
              inl (CodeBlockRenderError (FunctionNotFound pn fn))).
Proof.
  intros He H0 Ht.
  pose proof (parse_operand_first _ _ _ He H0 Ht) as Hts.
  destruct e as [ts]. simpl in Hts. subst ts.
  rewrite !render_code_operand by done.
  split_and!; eauto; done.
Qed.

Lemma render_code_operand_ignores_registry_witness :
  ∃ s, (render_code {| tokens := [VarBlock "x"] |} {| plugins := Some [] |} 0
          [{[ "x" := "there" ]}]).1 = inr s.
Proof.
  apply (render_code_operand_ignores_registry [VarBlock "x"; ValBlock "hi"]
           {| tokens := [VarBlock "x"] |} (VarBlock "x")
           {| plugins := Some [] |} 0 [{[ "x" := "there" ]}]);
    [reflexivity | reflexivity | apply list_elem_of_further, list_elem_of_here].
Defined.

(** ** The argument binder *)

Lemma check_tokens_valid_extras (pn : option string) (fn : string)
    (extras ts : list Token) :
  (check_tokens (FunctionIdBlock pn fn :: extras)).2 = inr ts →
  ts = FunctionIdBlock pn fn :: extras ∧ valid_extras extras.
Proof.
  rewrite check_tokens_cases. destruct extras as [|t1 rest].
  { by intros [= <-]. }
  destruct (bool_decide _) eqn:E1; [|done].
  apply bool_decide_eq_true in E1.
  destruct (List.find not_named rest) eqn:Ef; [done|].
  intros [= <-]. split; [done|]. split; [done|].
  apply Forall_lookup. intros i t. by apply find_not_named_None.
Qed.

Lemma contents_insert_eq (σ : Store) (c : loc) (m : gmap string string) :
  c < length σ → contents (<[c := m]> σ) c = m.
Proof. intros Hc. unfold contents. by rewrite list_lookup_insert_eq. Qed.

(** One turn of the loop on a named argument. *)
Lemma enrich_loop_named_cons (p0 : string) (c : loc) (i : nat)
    (n : string) (o : Operand) (rest : list Token) (σ : Store) :
  enrich_loop p0 c i (NamedArgBlock n o :: rest) σ =
    enrich_loop p0 c (S i) rest
      (<[c := bind_step p0 (contents σ c) (NamedArgBlock n o)]> σ).
Proof. done. Qed.

(** The loop over named arguments folds [bind_step] over them. *)
Lemma enrich_loop_named (p0 : string) (c : loc) (rest : list Token) :
  ∀ (i : nat) (σ : Store),
    Forall (λ t, token_type t = NAMED_ARG) rest →
    c < length σ →
    enrich_loop p0 c i rest σ =
      (inr (), <[c := foldl (bind_step p0) (contents σ c) rest]> σ).
Proof.
  induction rest as [|t rest IH]; intros i σ Hall Hc.
  - simpl. unfold contents. destruct (σ !! c) as [m|] eqn:E.
    + by rewrite list_insert_id.
    + apply lookup_ge_None in E. lia.
  - apply Forall_cons in Hall as [Ht Hall].
    destruct t as [| |n o|]; try discriminate.
    rewrite enrich_loop_named_cons, IH; [|done|by rewrite length_insert].
    rewrite contents_insert_eq by done.
    by rewrite list_insert_insert_eq.
Qed.

(** The loop from index 1 over the extra tokens of a valid call. *)
Lemma enrich_loop_valid (p0 : string) (c : loc) (extras : list Token) (σ : Store) :
  valid_extras extras →
  c < length σ →
  enrich_loop p0 c 1 extras σ =
    (inr (), <[c := spec_bind p0 extras (contents σ c)]> σ).
Proof.
  intros Hv Hc. destruct extras as [|t1 rest].
  { by apply enrich_loop_named. }
  destruct Hv as [H1 Hall].
  assert (enrich_loop p0 c 1 (t1 :: rest) σ =
          enrich_loop p0 c 2 rest (<[c := bind_step p0 (contents σ c) t1]> σ)) as ->.
  { by destruct t1. }
  rewrite enrich_loop_named; [|done|by rewrite length_insert].
  rewrite contents_insert_eq by done.
  by rewrite list_insert_insert_eq.
Qed.

(** [_enrich_function_arguments] on a block that passed [check_tokens]. *)
Lemma enrich_function_arguments_valid
    (pn : option string) (fn : string) (extras : list Token)
    (kernel : Kernel) (c : loc) (md : KernelFunctionMetadata)
    (p0 : string) (ps : list string) (σ : Store) :
  valid_extras extras →
  fm_parameters md = p0 :: ps →
  c < length σ →
  _enrich_function_arguments {| tokens := FunctionIdBlock pn fn :: extras |}
      kernel c md σ =
    (inr c, <[c := spec_bind p0 extras (contents σ c)]> σ).
Proof.
  intros Hv Hp Hc. unfold _enrich_function_arguments. rewrite Hp.
  cbn [tokens drop]. unfold mbind, M_bind.
  by rewrite enrich_loop_valid.
Qed.

(** ** The function-call path, in two phases *)

Lemma get_function_nil (pn : option string) (fn : string) (f : KernelFunction) :
  _get_function_from_plugin_collection [] pn fn ≠ inr (Some f).
Proof.
  unfold _get_function_from_plugin_collection.
  destruct pn as [pn|]; [|done]. by destruct (0 <? String.length pn).
Qed.

(** The scan tests [in] before it subscripts, so it never raises. *)
Lemma scan_plugins_no_raise (ps : KernelPluginCollection) (fn : string) (e : Exn) :
  scan_plugins ps fn ≠ inl e.
Proof.
  induction ps as [|q ps IH]; [done|]. simpl.
  unfold plugin_contains, plugin_getitem.
  destruct (kp_functions q !! fn) as [g|] eqn:Hq.
  - by rewrite bool_decide_eq_true_2 by eauto.
  - rewrite bool_decide_eq_false_2; [done|]. by intros [? ?].
Qed.

(** What resolution raises is the [KeyError] of a qualified miss: the
    namespace is not registered, or it is and lacks the name. *)
Lemma get_function_raises (ps : KernelPluginCollection) (pn : option string)
    (fn : string) (err : Exn) :
  _get_function_from_plugin_collection ps pn fn = inl err →
  ∃ ns, pn = Some ns ∧ ns ≠ "" ∧
        ((err = KeyError ns ∧ plugins_getitem ps ns = inl (KeyError ns)) ∨
         (err = KeyError fn ∧
          ∃ p, plugins_getitem ps ns = inr p ∧ kp_functions p !! fn = None)).
Proof.
  unfold _get_function_from_plugin_collection.
  destruct pn as [ns|]; [|by intros ?%scan_plugins_no_raise].
  destruct (0 <? String.length ns) eqn:Hlen;
    [|by intros ?%scan_plugins_no_raise].
  intros H. exists ns. split; [done|]. split; [by intros ->|].
  destruct (plugins_getitem ps ns) as [e|p] eqn:Hp.
  - injection H as <-. left. revert Hp. unfold plugins_getitem.
    destruct (List.find _ ps); [done|]. by intros [= <-].
  - right. unfold plugin_getitem in H.
    destruct (kp_functions p !! fn) eqn:Hq; [done|].
    injection H as <-. by eauto.
Qed.

(** One turn of the scan: the [in] test and the subscript agree. *)
Lemma scan_plugins_cons (q : KernelPlugin) (ps : KernelPluginCollection)
    (fn : string) :
  scan_plugins (q :: ps) fn =
    match kp_functions q !! fn with
    | Some g => inr (Some g)
    | None => scan_plugins ps fn
    end.
Proof.
  simpl. unfold plugin_contains, plugin_getitem.
  destruct (kp_functions q !! fn) as [g|] eqn:Hq.
  - by rewrite bool_decide_eq_true_2 by eauto.
  - rewrite bool_decide_eq_false_2; [done|]. by intros [? ?].
Qed.

Lemma scan_plugins_Some (ps : KernelPluginCollection) (fn : string)
    (f : KernelFunction) :
  scan_plugins ps fn = inr (Some f) ↔
  ∃ i p, ps !! i = Some p ∧ kp_functions p !! fn = Some f ∧
         ∀ j p', j < i → ps !! j = Some p' → kp_functions p' !! fn = None.
Proof.
  induction ps as [|q ps IH].
  { split; [done|]. by intros (i & p & ? & _). }
  rewrite scan_plugins_cons. destruct (kp_functions q !! fn) as [g|] eqn:Hq.
  - split.
    + intros [= <-]. exists 0, q. split_and!; [done|done|]. intros j p' Hj. lia.
    + intros ([|i] & p & Hi & Hp & Hbefore).
      * simpl in Hi. injection Hi as <-. congruence.
      * specialize (Hbefore 0 q ltac:(lia) eq_refl). congruence.
  - rewrite IH. split.
    + intros (i & p & Hi & Hp & Hbefore). exists (S i), p.
      split_and!; [done|done|]. intros [|j] p' Hj Hp'.
      * simpl in Hp'. by injection Hp' as <-.
      * apply (Hbefore j); [lia|done].
    + intros ([|i] & p & Hi & Hp & Hbefore).
      * simpl in Hi. injection Hi as <-. congruence.
      * exists i, p. split_and!; [done|done|]. intros j p' Hj Hp'.
        apply (Hbefore (S j)); [lia|done].
Qed.

Lemma scan_plugins_None (ps : KernelPluginCollection) (fn : string) :
  scan_plugins ps fn = inr None ↔ ∀ p, p ∈ ps → kp_functions p !! fn = None.
Proof.
  induction ps as [|q ps IH].
  { split; [|done]. intros _ p Hp. by apply elem_of_nil in Hp. }
  rewrite scan_plugins_cons. destruct (kp_functions q !! fn) as [g|] eqn:Hq.
  - split; [done|]. intros H. specialize (H q ltac:(left)). congruence.
  - rewrite IH. split.
    + intros H p [->|Hp]%elem_of_cons; [done|by apply H].
    + intros H p Hp. apply H. by right.
Qed.

Lemma get_function_unqualified (ps : KernelPluginCollection)
    (pn : option string) (fn : string) :
  pn = None ∨ pn = Some "" →
  _get_function_from_plugin_collection ps pn fn = scan_plugins ps fn.
Proof. by intros [-> | ->]. Qed.

(** Resolution yields nothing only on the scan branch, when no plugin
    holds the name. *)
Lemma get_function_None (ps : KernelPluginCollection) (pn : option string)
    (fn : string) :
  _get_function_from_plugin_collection ps pn fn = inr None ↔
  (pn = None ∨ pn = Some "") ∧ ∀ p, p ∈ ps → kp_functions p !! fn = None.
Proof.
  destruct pn as [[|c ns]|].
  - rewrite get_function_unqualified by eauto. rewrite scan_plugins_None.
    split; [by eauto|by intros [_ ?]].
  - split; [|by intros [[?|?] _]].
    unfold _get_function_from_plugin_collection. cbn [String.length Nat.ltb Nat.leb].
    destruct (plugins_getitem ps _) as [?|q]; [done|].
    by destruct (plugin_getitem q fn).
  - rewrite get_function_unqualified by eauto. rewrite scan_plugins_None.
    split; [by eauto|by intros [_ ?]].
Qed.

(** Once the function is resolved, a render clones and binds, invokes the
    function on the clone, and converts the result. *)
Lemma render_code_resolved (self : CodeBlock) (kernel : Kernel) (a : loc)
    (σ : Store) (ps : KernelPluginCollection) (pn : option string)
    (fn : string) (extras : list Token) (function : KernelFunction) :
  plugins kernel = Some ps →
  tokens self = FunctionIdBlock pn fn :: extras →
  _get_function_from_plugin_collection ps pn fn = inr (Some function) →
  render_code self kernel a σ =
    match bind_phase self kernel function a σ with
    | (inl e, σ1) => (inl e, σ1)
    | (inr c, σ1) =>
        let '(r, m) := invoke function (contents σ1 c) in
        (result_outcome (metadata function) r, <[c := m]> σ1)
    end.
Proof.
  intros Hps Hts Hf. unfold render_code, _render_function_call.
  rewrite Hts, Hps. cbn [token_type]. rewrite bool_decide_eq_true_2 by done.
  destruct ps as [|p ps']; [by apply get_function_nil in Hf|].
  rewrite Hf. unfold bind_phase. rewrite Hts.
  unfold mbind, M_bind, copy.
  destruct (if 1 <? length (FunctionIdBlock pn fn :: extras) then _ else _)
    as [[e|c] σ1]; [done|].
  unfold call_invoke, result_outcome.
  destruct (invoke function (contents σ1 c)) as [r m].
  by destruct (result_error r).
Qed.

(** The clone made by [bind_phase] of a valid call, and what is bound in it. *)
Lemma bind_phase_valid (pn : option string) (fn : string) (extras : list Token)
    (kernel : Kernel) (function : KernelFunction) (a : loc) (σ : Store)
    (p0 : string) (params : list string) :
  valid_extras extras →
  extras ≠ [] →
  fm_parameters (metadata function) = p0 :: params →
  bind_phase {| tokens := FunctionIdBlock pn fn :: extras |} kernel function a σ =
    (inr (length σ), (σ ++ [spec_bind p0 extras (contents σ a)])%list).
Proof.
  intros Hv Hne Hp. unfold bind_phase, mbind, M_bind, copy. cbn [tokens].
  destruct extras as [|t1 rest]; [done|]. cbn [length Nat.ltb Nat.leb].
  erewrite enrich_function_arguments_valid; [|done|done|rewrite length_app; simpl; lia].
  unfold contents at 1. rewrite lookup_app_r, Nat.sub_diag by lia. simpl.
  f_equal. rewrite insert_app_r_alt, Nat.sub_diag by lia. done.
Qed.

Lemma parse_function_call (pn : option string) (fn : string)
    (extras : list Token) (e : CodeBlock) :
  (parse (FunctionIdBlock pn fn :: extras)).2 = inr e →
  e = {| tokens := FunctionIdBlock pn fn :: extras |} ∧ valid_extras extras.
Proof.
  rewrite parse_snd.
  destruct (check_tokens _).2 as [err|ts] eqn:E; [done|].
  apply check_tokens_valid_extras in E as [-> Hv].
  by intros [= <-].
Qed.

(** C5. In a valid function call with extra tokens, resolved to a function
    that declares at least one parameter, the function is invoked on the
    caller's bindings extended by the binder's writes, made left to right:
    the first extra token's rendering goes under the first declared
    parameter when the token is not a named argument and under its own name
    when it is; every later token is a named argument and goes under its
    own name ([spec_bind]).  The render returns what the result of that
    invocation turns into. *)
Theorem binder_first_positional_then_named
    (toks : list Token) (e : CodeBlock) (pn : option string) (fn : string)
    (t1 : Token) (rest : list Token) (kernel : Kernel)
    (ps : KernelPluginCollection) (function : KernelFunction)
    (p0 : string) (params : list string) (a : loc) (σ : Store) :
  (parse toks).2 = inr e →
  toks = FunctionIdBlock pn fn :: t1 :: rest →
  plugins kernel = Some ps →
  _get_function_from_plugin_collection ps pn fn = inr (Some function) →
  fm_parameters (metadata function) = p0 :: params →
  Forall (λ t, token_type t = NAMED_ARG) rest ∧
  (token_type t1 ≠ NAMED_ARG → arg_key p0 t1 = p0) ∧
  Forall (λ t, token_name t = Some (arg_key p0 t))
    (filter (λ t, token_type t = NAMED_ARG) (t1 :: rest)) ∧
  (render_code e kernel a σ).1 =
    result_outcome (metadata function)
      (invoke function (spec_bind p0 (t1 :: rest) (contents σ a))).1.
Proof.
  intros He -> Hps Hf Hp.
  apply parse_function_call in He as [-> Hv].
  split_and!.
  - by destruct Hv.
  - by destruct t1.
  - apply Forall_forall. intros t [Ht _]%list_elem_of_filter. by destruct t.
  - erewrite render_code_resolved by done.
    erewrite bind_phase_valid by done.
    unfold contents at 1. rewrite lookup_app_r, Nat.sub_diag by lia. simpl.
    by destruct (invoke function _).
Qed.

Lemma binder_first_positional_then_named_witness :
  (parse add_call).2 = inr {| tokens := add_call |} ∧
  spec_bind "a" [ValBlock "2"; NamedArgBlock "b" (OpValue "3")] ∅ =
    <["b" := "3"]> (<["a" := "2"]> ∅) ∧
  (render_code {| tokens := add_call |} math_kernel 0 [∅]).1 = inr "2+3".
Proof.
  split; [reflexivity|]. split; [reflexivity|].
  destruct (binder_first_positional_then_named add_call {| tokens := add_call |}
              None "add" (ValBlock "2") [NamedArgBlock "b" (OpValue "3")]
              math_kernel
              [{| kp_name := "math"; kp_functions := {[ "add" := add_function ]} |}]
              add_function "a" ["b"] 0 [∅]
              eq_refl eq_refl eq_refl eq_refl eq_refl) as (_ & _ & _ & H).
  exact H.
Defined.

(** ** Arity *)

(** C6. A function call with at least one extra token, resolved to a
    function that declares no parameter, fails with [ArityMismatch]; a call
    with no extra token never fails with it, whatever the kernel holds. *)
Theorem arity_mismatch_iff_extras
    (self : CodeBlock) (kernel : Kernel) (a : loc) (σ : Store)
    (pn : option string) (fn : string) (extras : list Token) :
  tokens self = FunctionIdBlock pn fn :: extras →
  (extras ≠ [] →
   ∀ ps function,
     plugins kernel = Some ps →
     _get_function_from_plugin_collection ps pn fn = inr (Some function) →
     fm_parameters (metadata function) = [] →
     (render_code self kernel a σ).1 =
       inl (CodeBlockRenderError
              (ArityMismatch (metadata function) (length extras)))) ∧
  (extras = [] →
   ∀ md n, (render_code self kernel a σ).1 ≠
             inl (CodeBlockRenderError (ArityMismatch md n))).
Proof.
  intros Hts. split.
  - intros Hne ps function Hps Hf Hp.
    erewrite render_code_resolved by done.
    unfold bind_phase, mbind, M_bind, copy. rewrite Hts.
    destruct extras as [|t1 rest]; [done|]. cbn [length Nat.ltb Nat.leb].
    unfold _enrich_function_arguments. by rewrite Hp, Hts.
  - intros -> md n.
    unfold render_code, _render_function_call. rewrite Hts.
    cbn [token_type]. rewrite bool_decide_eq_true_2 by done.
    destruct (plugins kernel) as [[|p ps]|]; [done| |done].
    destruct (_get_function_from_plugin_collection _ _ _)
      as [err|[function|]] eqn:Hf; [|  |done].
    { apply get_function_raises in Hf as (? & _ & _ & [[-> _]|[-> _]]); done. }
    unfold mbind, M_bind, copy, call_invoke. simpl.
    destruct (invoke function _) as [r m].
    by destruct (result_error r).
Qed.

Lemma arity_mismatch_iff_extras_witness :
  (render_code {| tokens := [FunctionIdBlock None "noop"; ValBlock "x"] |}
     util_kernel 0 [∅]).1 =
    inl (CodeBlockRenderError (ArityMismatch (metadata noop_function) 1)).
Proof.
  destruct (arity_mismatch_iff_extras
              {| tokens := [FunctionIdBlock None "noop"; ValBlock "x"] |}
              util_kernel 0 [∅] None "noop" [ValBlock "x"] eq_refl) as [H _].
  apply (H ltac:(discriminate)
           [{| kp_name := "util"; kp_functions := {[ "noop" := noop_function ]} |}]
           noop_function eq_refl eq_refl eq_refl).
Defined.

(** ** The result of the invocation *)

(** C9. Once the function is invoked (the registry is there, the function
    is resolved and the binder has run), a result that carries an error
    makes the render fail with [InvocationFailed] on the function's
    metadata and that error, and no string is returned; a result without
    one makes the render return its string form, the empty string when the
    result is falsy. *)
Theorem invocation_result_decides_render
    (self : CodeBlock) (kernel : Kernel) (a : loc) (σ σ1 : Store)
    (ps : KernelPluginCollection) (pn : option string) (fn : string)
    (extras : list Token) (function : KernelFunction) (c : loc) :
  plugins kernel = Some ps →
  tokens self = FunctionIdBlock pn fn :: extras →
  _get_function_from_plugin_collection ps pn fn = inr (Some function) →
  bind_phase self kernel function a σ = (inr c, σ1) →
  let result := (invoke function (contents σ1 c)).1 in
  (∀ exc, result_error result = Some exc →
     (render_code self kernel a σ).1 =
       inl (CodeBlockRenderError (InvocationFailed (metadata function) exc))) ∧
  (result_error result = None →
     (render_code self kernel a σ).1 =
       inr (if result_bool result then result_str result else "")) ∧
  (result_error result = None → result_bool result = false →
     (render_code self kernel a σ).1 = inr "").
Proof.
  intros Hps Hts Hf Hb result.
  erewrite render_code_resolved by done. rewrite Hb.
  subst result. destruct (invoke function (contents σ1 c)) as [r m]. simpl.
  unfold result_outcome. split_and!.
  - by intros exc ->.
  - by intros ->.
  - by intros -> ->.
Qed.

Lemma invocation_result_decides_render_witness :
  (render_code {| tokens := [FunctionIdBlock (Some "util") "fail"; ValBlock "x"] |}
     failing_kernel 0 [∅]).1 =
    inl (CodeBlockRenderError
           (InvocationFailed (metadata failing_function) "boom")).
Proof.
  destruct (invocation_result_decides_render
              {| tokens := [FunctionIdBlock (Some "util") "fail"; ValBlock "x"] |}
              failing_kernel 0 [∅] [∅; {[ "input" := "x" ]}]
              [{| kp_name := "util"; kp_functions := {[ "fail" := failing_function ]} |}]
              (Some "util") "fail" [ValBlock "x"] failing_function 1
              eq_refl eq_refl eq_refl eq_refl) as [H _].
  apply (H "boom" eq_refl).
Defined.

(** ** Resolution under a namespace *)

(** C2.  The code departs from the claim.  A function id with a non-empty
    namespace is looked up in exactly that namespace and then by name
    within it, with no fallback to the other plugins; but when the
    namespace is not registered, or is registered without the name, the
    subscript of line 172 raises [KeyError] and the render fails with it,
    not with [FunctionNotFound]: the [return None] that the docstring
    announces is never reached on this branch.  The store is left alone. *)
Theorem qualified_miss_raises_key_error
    (self : CodeBlock) (kernel : Kernel) (a : loc) (σ : Store)
    (ps : KernelPluginCollection) (ns fn : string) (extras : list Token) :
  tokens self = FunctionIdBlock (Some ns) fn :: extras →
  ns ≠ "" →
  plugins kernel = Some ps →
  ps ≠ [] →
  ((∀ p, p ∈ ps → kp_name p ≠ ns) →
   render_code self kernel a σ = (inl (KeyError ns), σ)) ∧
  (∀ p, plugins_getitem ps ns = inr p → kp_functions p !! fn = None →
   render_code self kernel a σ = (inl (KeyError fn), σ)) ∧
  (∀ p f, plugins_getitem ps ns = inr p → kp_functions p !! fn = Some f →
   _get_function_from_plugin_collection ps (Some ns) fn = inr (Some f)).
Proof.
  intros Hts Hns Hps Hne.
  assert (_get_function_from_plugin_collection ps (Some ns) fn =
          match plugins_getitem ps ns with
          | inl e => inl e
          | inr plugin =>
              match plugin_getitem plugin fn with
              | inl e => inl e
              | inr f => inr (Some f)
              end
          end) as Hget.
  { unfold _get_function_from_plugin_collection. by destruct ns. }
  assert (∀ err, _get_function_from_plugin_collection ps (Some ns) fn = inl err →
                 render_code self kernel a σ = (inl err, σ)) as Hraise.
  { intros err Herr. unfold render_code, _render_function_call.
    rewrite Hts, Hps. cbn [token_type]. rewrite bool_decide_eq_true_2 by done.
    destruct ps as [|q ps']; [done|]. by rewrite Herr. }
  split_and!.
  - intros Habs. apply Hraise. rewrite Hget. unfold plugins_getitem.
    destruct (List.find _ ps) as [p|] eqn:Hfind; [|done].
    apply List.find_some in Hfind as [Hin Hname].
    apply bool_decide_eq_true in Hname. apply list_elem_of_In in Hin.
    by destruct (Habs p Hin).
  - intros p Hp Hfn. apply Hraise. rewrite Hget, Hp.
    unfold plugin_getitem. by rewrite Hfn.
  - intros p f Hp Hfn. rewrite Hget, Hp. unfold plugin_getitem. by rewrite Hfn.
Qed.

(** The failing input: [add] is registered under [math] and asked for under
    [text]. *)
Lemma qualified_miss_raises_key_error_witness :
  tokens {| tokens := [FunctionIdBlock (Some "text") "add"] |} =
    [FunctionIdBlock (Some "text") "add"] ∧
  plugins math_kernel =
    Some [{| kp_name := "math"; kp_functions := {[ "add" := add_function ]} |}] ∧
  render_code {| tokens := [FunctionIdBlock (Some "text") "add"] |}
    math_kernel 0 [∅] = (inl (KeyError "text"), [∅]) ∧
  (render_code {| tokens := [FunctionIdBlock (Some "text") "add"] |}
     math_kernel 0 [∅]).1 ≠
    inl (CodeBlockRenderError (FunctionNotFound (Some "text") "add")).
Proof.
  split; [reflexivity|]. split; [reflexivity|].
  destruct (qualified_miss_raises_key_error
              {| tokens := [FunctionIdBlock (Some "text") "add"] |}
              math_kernel 0 [∅]
              [{| kp_name := "math"; kp_functions := {[ "add" := add_function ]} |}]
              "text" "add" [] eq_refl ltac:(discriminate) eq_refl
              ltac:(discriminate)) as [H _].
  assert (render_code {| tokens := [FunctionIdBlock (Some "text") "add"] |}
            math_kernel 0 [∅] = (inl (KeyError "text"), [∅])) as Hrun.
  { apply H. intros p Hp. apply list_elem_of_singleton in Hp as ->. discriminate. }
  split; [exact Hrun|]. rewrite Hrun. discriminate.
Defined.

(** ** The caller's arguments *)

Section frame.
Context (c : loc).

Lemma writes_only_ret {A} (x : A) : writes_only c (mret x).
Proof. by intros σ l Hl. Qed.

Lemma writes_only_raise {A} (e : Exn) : writes_only c (@raise A e).
Proof. by intros σ l Hl. Qed.

Lemma writes_only_bind {A B} (m : M A) (f : A → M B) :
  writes_only c m → (∀ x, writes_only c (f x)) → writes_only c (m ≫= f).
Proof.
  intros Hm Hf σ l Hl. unfold mbind, M_bind.
  specialize (Hm σ l Hl). destruct (m σ) as [[e|x] σ1]; [done|].
  simpl in Hm. rewrite <- Hm. by apply Hf.
Qed.

Lemma writes_only_render (t : Token) : writes_only c (render t c).
Proof. by intros σ l Hl. Qed.

Lemma writes_only_setitem (k v : string) : writes_only c (setitem c k v).
Proof. intros σ l Hl. simpl. by rewrite list_lookup_insert_ne. Qed.

Lemma writes_only_enrich_loop (p0 : string) (rest : list Token) :
  ∀ i, writes_only c (enrich_loop p0 c i rest).
Proof.
  induction rest as [|t rest IH]; intros i; [apply writes_only_ret|].
  cbn [enrich_loop].
  apply writes_only_bind; [apply writes_only_render|]. intros v.
  apply writes_only_bind; [|intros _; apply IH].
  destruct (_ && _); [apply writes_only_setitem|].
  destruct (token_name t); [apply writes_only_setitem|apply writes_only_raise].
Qed.

Lemma writes_only_enrich (self : CodeBlock) (kernel : Kernel)
    (md : KernelFunctionMetadata) :
  writes_only c (_enrich_function_arguments self kernel c md).
Proof.
  unfold _enrich_function_arguments.
  destruct (fm_parameters md); [apply writes_only_raise|].
  apply writes_only_bind; [apply writes_only_enrich_loop|].
  intros _. apply writes_only_ret.
Qed.
End frame.

(** [_enrich_function_arguments] returns the reference it was given. *)
Lemma enrich_returns_its_argument (self : CodeBlock) (kernel : Kernel) (c c' : loc)
    (md : KernelFunctionMetadata) (σ σ' : Store) :
  _enrich_function_arguments self kernel c md σ = (inr c', σ') → c' = c.
Proof.
  unfold _enrich_function_arguments.
  destruct (fm_parameters md); [done|]. unfold mbind, M_bind.
  destruct (enrich_loop _ _ _ _ _) as [[e|[]] σ1]; [done|]. by intros [= <- _].
Qed.

(** The clone is a new object; the objects that existed keep their
    contents through cloning and binding. *)
Lemma bind_phase_frame (self : CodeBlock) (kernel : Kernel)
    (function : KernelFunction) (a : loc) (σ σ1 : Store) (r : Exn + loc) :
  bind_phase self kernel function a σ = (r, σ1) →
  (∀ l, l < length σ → σ1 !! l = σ !! l) ∧
  (∀ c, r = inr c → c = length σ).
Proof.
  unfold bind_phase, mbind, M_bind, copy. intros Hb.
  set (σ0 := (σ ++ [contents σ a])%list) in Hb.
  assert (∀ l, l < length σ → σ0 !! l = σ !! l) as H0.
  { intros l Hl. subst σ0. by rewrite lookup_app_l. }
  destruct (1 <? length (tokens self)).
  - split.
    + intros l Hl. rewrite <- H0 by done.
      pose proof (writes_only_enrich (length σ) self kernel (metadata function)
                    σ0 l ltac:(lia)) as Hw.
      by rewrite Hb in Hw.
    + intros c ->. by apply enrich_returns_its_argument in Hb.
  - injection Hb as <- <-. split; [done|]. by intros c [= <-].
Qed.

(** C7. A render leaves every arguments object that existed before it as
    it was, the caller's in particular: the binder and the invoked function
    work on a clone made before binding.  This holds when the render
    returns and when it raises. *)
Theorem render_code_preserves_caller_arguments
    (self : CodeBlock) (kernel : Kernel) (a : loc) (σ : Store)
    (m : gmap string string) :
  σ !! a = Some m →
  (render_code self kernel a σ).2 !! a = Some m ∧
  (∀ l, l < length σ → (render_code self kernel a σ).2 !! l = σ !! l).
Proof.
  intros Ha.
  assert (∀ l, l < length σ → (render_code self kernel a σ).2 !! l = σ !! l) as H.
  { intros l Hl.
    destruct (tokens self) as [|t0 ts] eqn:Hts;
      [by unfold render_code; rewrite Hts|].
    destruct t0 as [c|n|n o|pn fn];
      try by (unfold render_code; rewrite Hts).
    destruct (plugins kernel) as [ps|] eqn:Hps;
      [|by unfold render_code, _render_function_call; rewrite Hts, Hps].
    destruct (_get_function_from_plugin_collection ps pn fn)
      as [err|[function|]] eqn:Hf.
    - unfold render_code, _render_function_call. rewrite Hts, Hps. simpl.
      destruct ps; [done|]. by rewrite Hf.
    - erewrite render_code_resolved by done.
      destruct (bind_phase self kernel function a σ) as [[e|c] σ1] eqn:Hb;
        apply bind_phase_frame in Hb as [Hframe Hc]; [by apply Hframe|].
      specialize (Hc c eq_refl). subst c.
      destruct (invoke function _) as [r m']. simpl.
      rewrite list_lookup_insert_ne by lia. by apply Hframe.
    - unfold render_code, _render_function_call. rewrite Hts, Hps. simpl.
      destruct ps; [done|]. by rewrite Hf. }
  split; [|done]. rewrite H; [done|]. by apply lookup_lt_Some in Ha.
Qed.

Lemma render_code_preserves_caller_arguments_witness :
  (render_code {| tokens := add_call |} math_kernel 0 [{[ "x" := "1" ]}]).2 !! 0 =
    Some {[ "x" := "1" ]}.
Proof.
  destruct (render_code_preserves_caller_arguments {| tokens := add_call |}
              math_kernel 0 [{[ "x" := "1" ]}] {[ "x" := "1" ]} eq_refl)
    as [H _].
  exact H.
Defined.

(** ** The order of the binder's writes *)

Lemma token_render_agree (t : Token) (m m' : gmap string string) :
  (∀ n, reads t = Some n → m !! n = m' !! n) →
  token_render t m = token_render t m'.
Proof.
  intros H. destruct t as [c|n|n [c|v]|[pn|] fn]; simpl in *; try done.
  - by rewrite (H n eq_refl).
  - by rewrite (H v eq_refl).
Qed.

(** While no token reads a name that the binder writes, every value is the
    one rendered against the bindings the binder started from. *)
Lemma bind_steps_static (p0 : string) (m0 : gmap string string) (K : list string)
    (extras : list Token) :
  ∀ acc,
    (∀ k, k ∉ K → acc !! k = m0 !! k) →
    (∀ t, t ∈ extras → arg_key p0 t ∈ K) →
    (∀ t n, t ∈ extras → reads t = Some n → n ∉ K) →
    foldl (bind_step p0) acc extras = foldl (static_step p0 m0) acc extras.
Proof.
  induction extras as [|t extras IH]; intros acc Hacc Hkeys Hreads; [done|].
  simpl.
  assert (bind_step p0 acc t = static_step p0 m0 acc t) as ->.
  { unfold bind_step, static_step. f_equal.
    apply token_render_agree. intros n Hn. apply Hacc.
    apply (Hreads t n); [left|done]. }
  apply IH.
  - intros k Hk. unfold static_step. rewrite lookup_insert_ne; [by apply Hacc|].
    intros <-. apply Hk, Hkeys. left.
  - intros t' Ht'. apply Hkeys. by right.
  - intros t' n Ht'. apply Hreads. by right.
Qed.

(** Writes under pairwise distinct names commute. *)
Lemma static_steps_permutation (p0 : string) (m0 : gmap string string)
    (l1 l2 : list Token) :
  l1 ≡ₚ l2 →
  NoDup (arg_key p0 <$> l1) →
  ∀ acc, foldl (static_step p0 m0) acc l1 = foldl (static_step p0 m0) acc l2.
Proof.
  induction 1 as [|x l1 l2 Hp IH|x y l|l1 l2 l3 Hp1 IH1 Hp2 IH2];
    intros Hnd acc.
  - done.
  - simpl. apply IH. rewrite fmap_cons in Hnd. by apply NoDup_cons in Hnd as [_ ?].
  - simpl. f_equal. unfold static_step.
    rewrite !fmap_cons in Hnd. apply NoDup_cons in Hnd as [Hne _].
    apply insert_insert_ne. intros E. apply Hne. rewrite E. left.
  - rewrite IH1 by done. apply IH2. by rewrite <- Hp1.
Qed.

(** A name that no later token writes keeps its binding. *)
Lemma bind_steps_lookup_other (p0 : string) (k : string) (post : list Token) :
  ∀ acc,
    k ∉ (arg_key p0 <$> post) →
    foldl (bind_step p0) acc post !! k = acc !! k.
Proof.
  induction post as [|t post IH]; intros acc Hk; [done|].
  simpl. rewrite fmap_cons in Hk. apply not_elem_of_cons in Hk as [Hne Hk].
  rewrite IH by done. unfold bind_step. by rewrite lookup_insert_ne.
Qed.

Lemma spec_bind_permutation (p0 : string) (m : gmap string string)
    (extras extras' : list Token) :
  NoDup (arg_key p0 <$> extras) →
  (∀ t n, t ∈ extras → reads t = Some n → n ∉ (arg_key p0 <$> extras)) →
  extras ≡ₚ extras' →
  spec_bind p0 extras' m = spec_bind p0 extras m.
Proof.
  intros Hnd Hreads Hperm. unfold spec_bind.
  rewrite (bind_steps_static p0 m (arg_key p0 <$> extras) extras); first last.
  { done. }
  { intros t Ht. by apply list_elem_of_fmap_2. }
  { done. }
  rewrite (bind_steps_static p0 m (arg_key p0 <$> extras') extras'); first last.
  { intros t n Ht. rewrite <- Hperm in Ht |- *. by apply Hreads. }
  { intros t Ht. by apply list_elem_of_fmap_2. }
  { done. }
  symmetry. by apply static_steps_permutation.
Qed.

(** C3, as the code has it.  The binder makes its writes left to right and
    renders each token against the bindings as the earlier tokens of the
    same bind left them; the binding found under a name at the end is the
    one made by the last token that writes it.  When the written names are
    pairwise distinct and no extra token reads a name that the bind writes,
    every reordering of the extra tokens that is still a valid call ends in
    the same bindings. *)
Theorem binder_writes_in_order
    (pn : option string) (fn : string) (extras : list Token)
    (kernel : Kernel) (c : loc) (md : KernelFunctionMetadata)
    (p0 : string) (params : list string) (σ : Store) :
  valid_extras extras →
  fm_parameters md = p0 :: params →
  c < length σ →
  let run := λ ex,
    _enrich_function_arguments {| tokens := FunctionIdBlock pn fn :: ex |}
      kernel c md σ in
  (∀ pre t post,
     extras = (pre ++ t :: post)%list →
     arg_key p0 t ∉ (arg_key p0 <$> post) →
     contents (run extras).2 c !! arg_key p0 t =
       Some (token_render t (spec_bind p0 pre (contents σ c)))) ∧
  (NoDup (arg_key p0 <$> extras) →
   (∀ t n, t ∈ extras → reads t = Some n → n ∉ (arg_key p0 <$> extras)) →
   ∀ extras', extras ≡ₚ extras' → valid_extras extras' →
     run extras' = run extras).
Proof.
  intros Hv Hp Hc run. subst run. cbv beta. split.
  - intros pre t post -> Hk.
    erewrite enrich_function_arguments_valid by done. cbn [snd].
    rewrite contents_insert_eq by done.
    unfold spec_bind. rewrite foldl_app. cbn [foldl].
    rewrite bind_steps_lookup_other by done.
    unfold bind_step. by rewrite lookup_insert_eq.
  - intros Hnd Hreads extras' Hperm Hv'.
    erewrite !enrich_function_arguments_valid by done.
    by rewrite (spec_bind_permutation p0 _ extras extras').
Qed.

Lemma binder_writes_in_order_witness :
  _enrich_function_arguments
    {| tokens := [FunctionIdBlock None "add"; NamedArgBlock "b" (OpValue "3");
                  NamedArgBlock "a" (OpValue "2")] |}
    math_kernel 0 (metadata add_function) [∅] =
  _enrich_function_arguments
    {| tokens := [FunctionIdBlock None "add"; NamedArgBlock "a" (OpValue "2");
                  NamedArgBlock "b" (OpValue "3")] |}
    math_kernel 0 (metadata add_function) [∅].
Proof.
  destruct (binder_writes_in_order None "add"
              [NamedArgBlock "a" (OpValue "2"); NamedArgBlock "b" (OpValue "3")]
              math_kernel 0 (metadata add_function) "a" ["b"] [∅])
    as [_ H].
  - split; [apply list_elem_of_further, list_elem_of_further, list_elem_of_here|].
    by repeat constructor.
  - reflexivity.
  - simpl. lia.
  - apply H.
    + refine (bool_decide_unpack _ _). vm_compute. exact I.
    + intros t n Ht. repeat (apply elem_of_cons in Ht as [->|Ht]; [discriminate|]).
      by apply elem_of_nil in Ht.
    + apply perm_swap.
    + split; [apply list_elem_of_further, list_elem_of_further, list_elem_of_here|].
      by repeat constructor.
Defined.

(** C3, as stated, fails: two valid calls with the same extra tokens in
    two orders, under distinct names, end in different bindings, because
    the second token of the first call reads what its first token wrote. *)
Lemma binding_order_matters :
  let call1 := [FunctionIdBlock None "add"; NamedArgBlock "a" (OpValue "1");
                NamedArgBlock "b" (OpVariable "a")] in
  let call2 := [FunctionIdBlock None "add"; NamedArgBlock "b" (OpVariable "a");
                NamedArgBlock "a" (OpValue "1")] in
  (parse call1).2 = inr {| tokens := call1 |} ∧
  (parse call2).2 = inr {| tokens := call2 |} ∧
  drop 1 call1 ≡ₚ drop 1 call2 ∧
  contents (_enrich_function_arguments {| tokens := call1 |} math_kernel 0
              (metadata add_function) [∅]).2 0 !! "b" = Some "1" ∧
  contents (_enrich_function_arguments {| tokens := call2 |} math_kernel 0
              (metadata add_function) [∅]).2 0 !! "b" = Some "" ∧
  (render_code {| tokens := call1 |} math_kernel 0 [∅]).1 = inr "1+1" ∧
  (render_code {| tokens := call2 |} math_kernel 0 [∅]).1 = inr "1+".
Proof.
  cbv zeta. split_and!; [reflexivity|reflexivity|apply perm_swap|reflexivity..].
Qed.

(** * Further properties of the code *)

(** ** Construction *)

(** A function call never logs. *)
Lemma check_tokens_function_call_log (pn : option string) (fn : string)
    (extras : list Token) :
  (check_tokens (FunctionIdBlock pn fn :: extras)).1 = [].
Proof.
  destruct extras as [|t1 rest]; [done|].
  unfold check_tokens. cbn -[bool_decide VALID_ARG_TYPES].
  destruct (bool_decide (token_type t1 ∈ VALID_ARG_TYPES)); simpl; [|done].
  rewrite check_tokens_loop_tail by lia. by destruct (List.find _ _).
Qed.

(** X1. Validation is stable: the token list that [check_tokens] returns
    passes [check_tokens] again, comes back unchanged, and logs nothing the
    second time. *)
Theorem check_tokens_idempotent (toks ts : list Token) :
  (check_tokens toks).2 = inr ts →
  check_tokens ts = ([], inr ts).
Proof.
  intros H. destruct toks as [|t0 rest]; [done|].
  destruct (decide (token_type t0 ∈ [VALUE; VARIABLE])) as [Ht|Ht].
  - rewrite check_tokens_fst_operand in H by done. injection H as <-.
    by rewrite check_tokens_fst_operand.
  - destruct t0 as [c|n|n o|pn fn].
    + destruct Ht. apply list_elem_of_here.
    + destruct Ht. apply list_elem_of_further, list_elem_of_here.
    + by rewrite check_tokens_cases in H.
    + pose proof (check_tokens_valid_extras _ _ _ _ H) as [-> _].
      pose proof (check_tokens_function_call_log pn fn rest) as Hlog.
      destruct (check_tokens (FunctionIdBlock pn fn :: rest)) as [log r].
      simpl in *. by subst.
Qed.

Lemma check_tokens_idempotent_witness :
  check_tokens [ValBlock "hi"] = ([], inr [ValBlock "hi"]).
Proof.
  apply (check_tokens_idempotent [ValBlock "hi"; VarBlock "x"] [ValBlock "hi"]).
  reflexivity.
Defined.

(** X2. [check_tokens] logs its warning exactly when a value or variable
    leads and at least one more token follows; in every other case, an
    error or a function call, it logs nothing.  A logged warning always
    comes with a block, never with an error. *)
Theorem check_tokens_warns_iff_trailing (toks : list Token) :
  ((check_tokens toks).1 = [TrailingTokensIgnored] ↔
   ∃ t0 t1 rest, toks = t0 :: t1 :: rest ∧ token_type t0 ∈ [VALUE; VARIABLE]) ∧
  ((check_tokens toks).1 = [TrailingTokensIgnored] ∨ (check_tokens toks).1 = []) ∧
  ((check_tokens toks).1 ≠ [] → ∃ ts, (check_tokens toks).2 = inr ts).
Proof.
  destruct toks as [|t0 rest].
  { split_and!; [|by right|done]. split; [done|]. by intros (?&?&?&?&?). }
  destruct (decide (token_type t0 ∈ [VALUE; VARIABLE])) as [Ht|Ht].
  - rewrite check_tokens_fst_operand by done.
    destruct rest as [|t1 rest]; simpl.
    + split_and!; [|by right|done]. split; [done|]. by intros (?&?&?&?&?).
    + split_and!; [|by left|by eauto]. split; [|done]. intros _.
      by exists t0, t1, rest.
  - assert ((check_tokens (t0 :: rest)).1 = []) as Hlog.
    { destruct t0 as [c|n|n o|pn fn].
      - destruct Ht. apply list_elem_of_here.
      - destruct Ht. apply list_elem_of_further, list_elem_of_here.
      - done.
      - apply check_tokens_function_call_log. }
    rewrite Hlog. split_and!; [|by right|done].
    split; [done|]. intros (t0' & t1 & rest' & [= <- ->] & Ht'). done.
Qed.

(** X3. Construction never reorders or rewrites tokens: the block holds a
    non-empty prefix of the list it was given, the whole list when a
    function id leads. *)
Theorem parse_keeps_a_prefix (toks : list Token) (e : CodeBlock) :
  (parse toks).2 = inr e →
  tokens e ≠ [] ∧
  (∃ dropped, toks = (tokens e ++ dropped)%list) ∧
  (∀ t0, toks !! 0 = Some t0 → token_type t0 = FUNCTION_ID → tokens e = toks).
Proof.
  rewrite parse_snd. destruct (check_tokens toks).2 as [err|ts] eqn:E; [done|].
  intros [= <-]. cbn [tokens].
  destruct toks as [|t0 rest]; [done|].
  destruct t0 as [c|n|n o|pn fn].
  - rewrite check_tokens_cases in E. injection E as <-.
    split_and!; [done|by exists rest|by intros t0 [= <-]].
  - rewrite check_tokens_cases in E. injection E as <-.
    split_and!; [done|by exists rest|by intros t0 [= <-]].
  - by rewrite check_tokens_cases in E.
  - apply check_tokens_valid_extras in E as [-> _].
    split_and!; [done| |done]. exists []. by rewrite app_nil_r.
Qed.

Lemma parse_keeps_a_prefix_witness :
  tokens {| tokens := add_call |} ≠ [].
Proof.
  destruct (parse_keeps_a_prefix add_call {| tokens := add_call |} eq_refl)
    as [H _].
  exact H.
Defined.

(** ** Rendering a function call *)

(** The render of a validated function call, by cases. *)
Lemma render_function_call_cases (pn : option string) (fn : string)
    (extras : list Token) (kernel : Kernel) (a : loc) (σ : Store) :
  valid_extras extras →
  (render_code {| tokens := FunctionIdBlock pn fn :: extras |} kernel a σ).1 =
    call_outcome kernel pn fn extras (contents σ a).
Proof.
  intros Hv. unfold call_outcome.
  destruct (plugins kernel) as [[|p ps]|] eqn:Hps;
    [by unfold render_code, _render_function_call; cbn; rewrite Hps| |
     by unfold render_code, _render_function_call; cbn; rewrite Hps].
  destruct (_get_function_from_plugin_collection (p :: ps) pn fn)
    as [err|[f|]] eqn:Hf.
  - unfold render_code, _render_function_call. cbn. by rewrite Hps, Hf.
  - destruct extras as [|t1 rest].
    + erewrite render_code_resolved by done.
      unfold bind_phase, mbind, M_bind, copy. cbn [tokens length Nat.ltb Nat.leb].
      cbn [mret M_ret].
      unfold contents at 1. rewrite lookup_app_r, Nat.sub_diag by lia. simpl.
      unfold invoked_with, spec_bind.
      destruct (fm_parameters (metadata f)); simpl;
        by destruct (invoke f (contents σ a)).
    + destruct (fm_parameters (metadata f)) as [|p0 params] eqn:Hp.
      * erewrite render_code_resolved by done.
        unfold bind_phase, mbind, M_bind, copy.
        cbn [tokens length Nat.ltb Nat.leb].
        unfold _enrich_function_arguments. by rewrite Hp.
      * erewrite render_code_resolved by done.
        erewrite bind_phase_valid by done.
        unfold contents at 1. rewrite lookup_app_r, Nat.sub_diag by lia. simpl.
        unfold invoked_with. rewrite Hp.
        by destruct (invoke f _).
  - unfold render_code, _render_function_call. cbn. by rewrite Hps, Hf.
Qed.

Lemma result_outcome_render_error (md : KernelFunctionMetadata)
    (r : FunctionResult) (err : Exn) :
  result_outcome md r = inl err →
  ∃ exc, result_error r = Some exc ∧
         err = CodeBlockRenderError (InvocationFailed md exc).
Proof.
  unfold result_outcome. destruct (result_error r) as [exc|]; [|done].
  intros [= <-]. by exists exc.
Qed.

(** X4. Rendering a block that [parse] built never raises
    [AttributeError] or [IndexError]: the accesses [self.tokens[0]],
    [function_block.plugin_name], [parameters[0]] and [token.name] always
    find what they look for.  What it raises is a [CodeBlockRenderError],
    or the [KeyError] of a function id whose non-empty namespace is not
    registered or is registered without the name. *)
Theorem validated_render_raises_render_or_key_error
    (toks : list Token) (e : CodeBlock) (kernel : Kernel) (a : loc)
    (σ : Store) (err : Exn) :
  (parse toks).2 = inr e →
  (render_code e kernel a σ).1 = inl err →
  ¬ python_error err ∧
  ((∃ kind, err = CodeBlockRenderError kind) ∨
   (∃ ns fn extras ps,
      toks = FunctionIdBlock (Some ns) fn :: extras ∧ ns ≠ "" ∧
      plugins kernel = Some ps ∧
      ((err = KeyError ns ∧ plugins_getitem ps ns = inl (KeyError ns)) ∨
       (err = KeyError fn ∧
        ∃ p, plugins_getitem ps ns = inr p ∧ kp_functions p !! fn = None)))).
Proof.
  intros He Herr.
  assert ((∃ kind, err = CodeBlockRenderError kind) ∨
          (∃ ns fn extras ps,
             toks = FunctionIdBlock (Some ns) fn :: extras ∧ ns ≠ "" ∧
             plugins kernel = Some ps ∧
             ((err = KeyError ns ∧ plugins_getitem ps ns = inl (KeyError ns)) ∨
              (err = KeyError fn ∧
               ∃ p, plugins_getitem ps ns = inr p ∧
                    kp_functions p !! fn = None)))) as H.
  { destruct toks as [|t0 rest]; [done|].
    destruct (decide (token_type t0 ∈ [VALUE; VARIABLE])) as [Ht|Ht].
    { pose proof (parse_operand_first _ _ _ He eq_refl Ht) as Hts.
      destruct e as [ts]. simpl in Hts. subst ts.
      by rewrite render_code_operand in Herr. }
    destruct t0 as [c|n|n o|pn fn].
    - destruct Ht. apply list_elem_of_here.
    - destruct Ht. apply list_elem_of_further, list_elem_of_here.
    - by rewrite parse_snd, check_tokens_cases in He.
    - apply parse_function_call in He as [-> Hv].
      rewrite render_function_call_cases in Herr by done.
      unfold call_outcome in Herr.
      destruct (plugins kernel) as [[|p ps]|] eqn:Hps;
        [by injection Herr as <-; eauto| |by injection Herr as <-; eauto].
      destruct (_get_function_from_plugin_collection _ _ _)
        as [err'|[f|]] eqn:Hf; [| |by injection Herr as <-; eauto].
      + injection Herr as ->.
        apply get_function_raises in Hf as (ns & -> & Hns & Hcase).
        right. by exists ns, fn, rest, (p :: ps).
      + destruct rest as [|t1 rest'], (fm_parameters (metadata f)) as [|p0 params];
          try (apply result_outcome_render_error in Herr as (exc & _ & ->);
               by eauto).
        injection Herr as <-. by eauto. }
  split; [|done].
  intros [->| ->]; destruct H as [[kind H]|(?&?&?&?&_&_&_&[[H _]|[H _]])];
    discriminate.
Qed.

Lemma validated_render_raises_render_or_key_error_witness :
  (parse [FunctionIdBlock (Some "math") "sub"; ValBlock "2"]).2 =
    inr {| tokens := [FunctionIdBlock (Some "math") "sub"; ValBlock "2"] |} ∧
  (render_code {| tokens := [FunctionIdBlock (Some "math") "sub"; ValBlock "2"] |}
     math_kernel 0 [∅]).1 = inl (KeyError "sub") ∧
  ¬ python_error (KeyError "sub").
Proof.
  split; [reflexivity|]. split; [reflexivity|].
  destruct (validated_render_raises_render_or_key_error
              [FunctionIdBlock (Some "math") "sub"; ValBlock "2"]
              {| tokens := [FunctionIdBlock (Some "math") "sub"; ValBlock "2"] |}
              math_kernel 0 [∅] (KeyError "sub") eq_refl eq_refl) as [H _].
  exact H.
Defined.

(** The cases of [call_outcome], one goal each: an empty collection, the
    two [KeyError]s of a qualified miss, a resolved function (with or
    without extra tokens, with or without parameters), an unresolved name,
    no collection. *)
Ltac call_outcome_cases kernel pn fn extras :=
  unfold call_outcome;
  let ps := fresh "ps" in
  let Hps := fresh "Hps" in
  let f := fresh "f" in
  let Hf := fresh "Hf" in
  let Hp := fresh "Hp" in
  destruct (plugins kernel) as [[|? ps]|] eqn:Hps;
    [| destruct (_get_function_from_plugin_collection _ pn fn)
         as [?|[f|]] eqn:Hf;
       [pose proof (get_function_raises _ _ _ _ Hf)
          as (? & _ & _ & [[-> _]|[-> _]])
       |destruct extras as [|? ?];
        destruct (fm_parameters (metadata f)) as [|? ?] eqn:Hp|] |].

(** Failing before the function is resolved leaves the store as it was. *)
Lemma render_code_early_failure_store (self : CodeBlock) (kernel : Kernel)
    (a : loc) (σ : Store) (pn : option string) (fn : string)
    (extras : list Token) :
  tokens self = FunctionIdBlock pn fn :: extras →
  (plugins kernel = None ∨ plugins kernel = Some [] ∨
   ∃ ps, plugins kernel = Some ps ∧
         _get_function_from_plugin_collection ps pn fn = inr None) →
  (render_code self kernel a σ).2 = σ.
Proof.
  intros Hts H. unfold render_code, _render_function_call. rewrite Hts. cbn.
  destruct H as [-> | [-> | (ps & -> & Hf)]]; [done|done|].
  destruct ps; [done|]. by rewrite Hf.
Qed.

(** X5. A validated function call fails with [NoRegistry] exactly when the
    kernel has no plugin collection or an empty one, whatever the function
    id and its arguments; the store is then left as it was. *)
Theorem no_registry_iff_no_plugins
    (pn : option string) (fn : string) (extras : list Token) (e : CodeBlock)
    (kernel : Kernel) (a : loc) (σ : Store) :
  (parse (FunctionIdBlock pn fn :: extras)).2 = inr e →
  ((render_code e kernel a σ).1 = inl (CodeBlockRenderError NoRegistry) ↔
   plugins kernel = None ∨ plugins kernel = Some []) ∧
  ((render_code e kernel a σ).1 = inl (CodeBlockRenderError NoRegistry) →
   (render_code e kernel a σ).2 = σ).
Proof.
  intros He. apply parse_function_call in He as [-> Hv].
  assert ((render_code {| tokens := FunctionIdBlock pn fn :: extras |} kernel a σ).1
            = inl (CodeBlockRenderError NoRegistry) ↔
          plugins kernel = None ∨ plugins kernel = Some []) as Hiff.
  { rewrite render_function_call_cases by done.
    call_outcome_cases kernel pn fn extras.
    - split; [by eauto|done].
    - split; [done|by intros [?|?]].
    - split; [done|by intros [?|?]].
    - split; [by intros (? & _ & ?)%result_outcome_render_error|by intros [?|?]].
    - split; [by intros (? & _ & ?)%result_outcome_render_error|by intros [?|?]].
    - split; [done|by intros [?|?]].
    - split; [by intros (? & _ & ?)%result_outcome_render_error|by intros [?|?]].
    - split; [done|by intros [?|?]].
    - split; [by eauto|done]. }
  split; [done|]. intros H%Hiff.
  eapply render_code_early_failure_store; [done|]. destruct H; eauto.
Qed.

Lemma no_registry_iff_no_plugins_witness :
  (render_code {| tokens := add_call |} {| plugins := Some [] |} 0 [∅]).1 =
      inl (CodeBlockRenderError NoRegistry) ↔
  plugins {| plugins := Some [] |} = None ∨
  plugins {| plugins := Some [] |} = Some [].
Proof.
  destruct (no_registry_iff_no_plugins None "add"
              [ValBlock "2"; NamedArgBlock "b" (OpValue "3")]
              {| tokens := add_call |} {| plugins := Some [] |} 0 [∅] eq_refl)
    as [H _].
  exact H.
Defined.

(** X6. A validated function call fails with [FunctionNotFound] exactly
    when the plugin collection is there and not empty, the function id
    carries no namespace (or an empty one), and no plugin holds the name:
    a miss under a namespace never ends this way.  The error names the
    function id of the call, and the store is left as it was: no clone is
    made. *)
Theorem function_not_found_iff_unresolved
    (pn : option string) (fn : string) (extras : list Token) (e : CodeBlock)
    (kernel : Kernel) (a : loc) (σ : Store) :
  (parse (FunctionIdBlock pn fn :: extras)).2 = inr e →
  ((∃ pn' fn', (render_code e kernel a σ).1 =
                 inl (CodeBlockRenderError (FunctionNotFound pn' fn'))) ↔
   ∃ ps, plugins kernel = Some ps ∧ ps ≠ [] ∧
         (pn = None ∨ pn = Some "") ∧
         ∀ p, p ∈ ps → kp_functions p !! fn = None) ∧
  (∀ pn' fn', (render_code e kernel a σ).1 =
                inl (CodeBlockRenderError (FunctionNotFound pn' fn')) →
     pn' = pn ∧ fn' = fn ∧ (render_code e kernel a σ).2 = σ).
Proof.
  intros He. apply parse_function_call in He as [-> Hv].
  assert (∀ pn' fn',
            (render_code {| tokens := FunctionIdBlock pn fn :: extras |}
               kernel a σ).1 =
              inl (CodeBlockRenderError (FunctionNotFound pn' fn')) →
            ∃ ps, plugins kernel = Some ps ∧ ps ≠ [] ∧
                  _get_function_from_plugin_collection ps pn fn = inr None ∧
                  pn' = pn ∧ fn' = fn) as Hfwd.
  { intros pn' fn'. rewrite render_function_call_cases by done.
    call_outcome_cases kernel pn fn extras; intros H;
      try discriminate;
      try (by apply result_outcome_render_error in H as (?&?&?)).
    injection H as <- <-. eexists. by split_and!. }
  split.
  - split.
    + intros (pn' & fn' & (ps & Hps & Hne & Hf & _)%Hfwd).
      apply get_function_None in Hf as [Hpn Hnone]. by exists ps.
    + intros (ps & Hps & Hne & Hpn & Hnone). exists pn, fn.
      rewrite render_function_call_cases by done. unfold call_outcome.
      rewrite Hps. destruct ps as [|q ps']; [done|].
      by rewrite (proj2 (get_function_None _ _ _) (conj Hpn Hnone)).
  - intros pn' fn' (ps & Hps & Hne & Hf & -> & ->)%Hfwd.
    split_and!; [done|done|].
    eapply render_code_early_failure_store; [done|]. by eauto 6.
Qed.

Lemma function_not_found_iff_unresolved_witness :
  (parse [FunctionIdBlock None "missing"]).2 =
    inr {| tokens := [FunctionIdBlock None "missing"] |} ∧
  ∃ pn' fn',
    (render_code {| tokens := [FunctionIdBlock None "missing"] |}
       math_kernel 0 [∅]).1 =
      inl (CodeBlockRenderError (FunctionNotFound pn' fn')).
Proof.
  split; [reflexivity|].
  destruct (function_not_found_iff_unresolved None "missing" []
              {| tokens := [FunctionIdBlock None "missing"] |}
              math_kernel 0 [∅] eq_refl) as [[_ H] _].
  apply H.
  exists [{| kp_name := "math"; kp_functions := {[ "add" := add_function ]} |}].
  split; [reflexivity|]. split; [discriminate|]. split; [by left|].
  intros p Hp. apply list_elem_of_singleton in Hp as ->. reflexivity.
Defined.

(** X7. A validated function call fails with [ArityMismatch] exactly when
    the function is resolved, the call has extra tokens and the function
    declares no parameter; the error carries the function's metadata and
    the number of extra tokens. *)
Theorem arity_mismatch_iff
    (pn : option string) (fn : string) (extras : list Token) (e : CodeBlock)
    (kernel : Kernel) (a : loc) (σ : Store) :
  (parse (FunctionIdBlock pn fn :: extras)).2 = inr e →
  ((∃ md n, (render_code e kernel a σ).1 =
              inl (CodeBlockRenderError (ArityMismatch md n))) ↔
   ∃ ps f, plugins kernel = Some ps ∧
           _get_function_from_plugin_collection ps pn fn = inr (Some f) ∧
           extras ≠ [] ∧ fm_parameters (metadata f) = []) ∧
  (∀ md n, (render_code e kernel a σ).1 =
             inl (CodeBlockRenderError (ArityMismatch md n)) →
     n = length extras ∧
     ∃ ps f, plugins kernel = Some ps ∧
             _get_function_from_plugin_collection ps pn fn = inr (Some f) ∧
             md = metadata f).
Proof.
  intros He. apply parse_function_call in He as [-> Hv].
  rewrite render_function_call_cases by done. split.
  - call_outcome_cases kernel pn fn extras.
    + split; [by intros (?&?&?)|].
      intros (?&?&[= <-]&Hget&?). by apply get_function_nil in Hget.
    + split; [by intros (?&?&?)|]. intros (?&?&[= <-]&?&?&?). congruence.
    + split; [by intros (?&?&?)|]. intros (?&?&[= <-]&?&?&?). congruence.
    + split; [by intros (?&?&(?&?&?)%result_outcome_render_error)|].
      by intros (?&?&?&?&?&?).
    + split; [by intros (?&?&(?&?&?)%result_outcome_render_error)|].
      by intros (?&?&?&?&?&?).
    + split; [intros _; by eauto 8|by eauto].
    + split; [by intros (?&?&(?&?&?)%result_outcome_render_error)|].
      intros (?&?&[= <-]&?&?&?). congruence.
    + split; [by intros (?&?&?)|]. intros (?&?&[= <-]&?&?&?). congruence.
    + split; [by intros (?&?&?)|by intros (?&?&?&?)].
  - intros md n.
    call_outcome_cases kernel pn fn extras; intros H;
      try discriminate;
      try (by apply result_outcome_render_error in H as (?&?&?)).
    injection H as <- <-. split; [done|by eauto].
Qed.

Lemma arity_mismatch_iff_witness :
  ∃ md n,
    (render_code {| tokens := [FunctionIdBlock None "noop"; ValBlock "x"] |}
       util_kernel 0 [∅]).1 = inl (CodeBlockRenderError (ArityMismatch md n)).
Proof.
  destruct (arity_mismatch_iff None "noop" [ValBlock "x"]
              {| tokens := [FunctionIdBlock None "noop"; ValBlock "x"] |}
              util_kernel 0 [∅] eq_refl) as [H _].
  apply H.
  exists [{| kp_name := "util"; kp_functions := {[ "noop" := noop_function ]} |}],
         noop_function.
  split; [reflexivity|]. split; [reflexivity|]. split; [discriminate|reflexivity].
Defined.

(** X8. A validated function call returns a string exactly when the
    function is resolved, the arity check passes (no extra token, or at
    least one declared parameter) and the result of the invocation carries
    no error; it fails with [InvocationFailed] exactly when the first two
    hold and the result carries one.  The function is invoked on the
    caller's bindings extended by the binder's writes. *)
Theorem render_returns_iff_invocation_succeeds
    (pn : option string) (fn : string) (extras : list Token) (e : CodeBlock)
    (kernel : Kernel) (a : loc) (σ : Store) :
  (parse (FunctionIdBlock pn fn :: extras)).2 = inr e →
  ((∃ s, (render_code e kernel a σ).1 = inr s) ↔
   ∃ ps f, plugins kernel = Some ps ∧
           _get_function_from_plugin_collection ps pn fn = inr (Some f) ∧
           (extras = [] ∨ fm_parameters (metadata f) ≠ []) ∧
           result_error (invoke f (invoked_with f extras (contents σ a))).1 = None) ∧
  ((∃ md exc, (render_code e kernel a σ).1 =
                inl (CodeBlockRenderError (InvocationFailed md exc))) ↔
   ∃ ps f exc, plugins kernel = Some ps ∧
           _get_function_from_plugin_collection ps pn fn = inr (Some f) ∧
           (extras = [] ∨ fm_parameters (metadata f) ≠ []) ∧
           result_error (invoke f (invoked_with f extras (contents σ a))).1 =
             Some exc).
Proof.
  intros He. apply parse_function_call in He as [-> Hv].
  rewrite render_function_call_cases by done.
  assert (∀ md r, (∃ s, result_outcome md r = inr s) ↔ result_error r = None)
    as Hok.
  { intros md r. unfold result_outcome.
    destruct (result_error r); split; try done; [by intros [? ?]|by eauto]. }
  assert (∀ md r, (∃ md' exc, result_outcome md r =
                     inl (CodeBlockRenderError (InvocationFailed md' exc))) ↔
                  ∃ exc, result_error r = Some exc) as Hko.
  { intros md r. unfold result_outcome.
    destruct (result_error r) as [exc|]; split; try done.
    - by eauto.
    - by eauto.
    - by intros (?&?&?).
    - by intros [? ?]. }
  split.
  - call_outcome_cases kernel pn fn extras.
    + split; [by intros [? ?]|]. intros (?&?&[= <-]&Hget&?).
      by apply get_function_nil in Hget.
    + split; [by intros [? ?]|]. intros (?&?&[= <-]&Hget&?). congruence.
    + split; [by intros [? ?]|]. intros (?&?&[= <-]&Hget&?). congruence.
    + rewrite Hok. split; [intros H; eexists _, _; by eauto|].
      intros (?&?&[= <-]&Hget&?&?). congruence.
    + rewrite Hok. split; [intros H; eexists _, _; by eauto|].
      intros (?&?&[= <-]&Hget&?&?). congruence.
    + split; [by intros [? ?]|]. intros (?&f'&[= <-]&Hget&[?|Hne]&?); [done|].
      assert (f' = f) as -> by congruence. done.
    + rewrite Hok. split.
      * intros H. eexists _, _. split_and!; [done|done| |done].
        right. congruence.
      * intros (?&?&[= <-]&Hget&?&?). congruence.
    + split; [by intros [? ?]|]. intros (?&?&[= <-]&Hget&?). congruence.
    + split; [by intros [? ?]|]. by intros (?&?&?&?).
  - call_outcome_cases kernel pn fn extras.
    + split; [by intros (?&?&?)|]. intros (?&?&?&[= <-]&Hget&?).
      by apply get_function_nil in Hget.
    + split; [by intros (?&?&?)|]. intros (?&?&?&[= <-]&Hget&?). congruence.
    + split; [by intros (?&?&?)|]. intros (?&?&?&[= <-]&Hget&?). congruence.
    + rewrite Hko. split; [intros [exc H]; eexists _, _, _; by eauto|].
      intros (?&f'&exc&[= <-]&Hget&?&?).
      assert (f' = f) as -> by congruence. by exists exc.
    + rewrite Hko. split; [intros [exc H]; eexists _, _, _; by eauto|].
      intros (?&f'&exc&[= <-]&Hget&?&?).
      assert (f' = f) as -> by congruence. by exists exc.
    + split; [by intros (?&?&?)|].
      intros (?&f'&?&[= <-]&Hget&[?|Hne]&?); [done|].
      assert (f' = f) as -> by congruence. done.
    + rewrite Hko. split.
      * intros [exc H]. eexists _, _, _. split_and!; [done|done| |done].
        right. congruence.
      * intros (?&f'&exc&[= <-]&Hget&?&?).
        assert (f' = f) as -> by congruence. by exists exc.
    + split; [by intros (?&?&?)|]. intros (?&?&?&[= <-]&Hget&?). congruence.
    + split; [by intros (?&?&?)|]. by intros (?&?&?&?&?).
Qed.

Lemma render_returns_iff_invocation_succeeds_witness :
  ∃ s, (render_code {| tokens := add_call |} math_kernel 0 [∅]).1 = inr s.
Proof.
  destruct (render_returns_iff_invocation_succeeds None "add"
              [ValBlock "2"; NamedArgBlock "b" (OpValue "3")]
              {| tokens := add_call |} math_kernel 0 [∅] eq_refl) as [H _].
  apply H.
  exists [{| kp_name := "math"; kp_functions := {[ "add" := add_function ]} |}],
         add_function.
  split; [reflexivity|]. split; [reflexivity|].
  split; [right; discriminate|reflexivity].
Defined.

(** X9. A function call without extra tokens hands the function an exact
    copy of the caller's bindings, whatever parameters the function
    declares, none included: the binder and its arity check are skipped.
    The store gains one object, the clone as the function left it. *)
Theorem call_without_arguments_passes_bindings_through
    (self : CodeBlock) (kernel : Kernel) (a : loc) (σ : Store)
    (ps : KernelPluginCollection) (pn : option string) (fn : string)
    (f : KernelFunction) :
  tokens self = [FunctionIdBlock pn fn] →
  plugins kernel = Some ps →
  _get_function_from_plugin_collection ps pn fn = inr (Some f) →
  render_code self kernel a σ =
    (result_outcome (metadata f) (invoke f (contents σ a)).1,
     (σ ++ [(invoke f (contents σ a)).2])%list).
Proof.
  intros Hts Hps Hf. erewrite render_code_resolved by done.
  unfold bind_phase, mbind, M_bind, copy. rewrite Hts.
  cbn [length Nat.ltb Nat.leb mret M_ret].
  unfold contents at 1. rewrite lookup_app_r, Nat.sub_diag by lia. simpl.
  destruct (invoke f (contents σ a)) as [r m]. simpl.
  by rewrite insert_app_r_alt, Nat.sub_diag by lia.
Qed.

Lemma call_without_arguments_passes_bindings_through_witness :
  render_code {| tokens := [FunctionIdBlock None "noop"] |} util_kernel 0
    [{[ "x" := "1" ]}] =
  (inr "done", [{[ "x" := "1" ]}; {[ "x" := "1" ]}]).
Proof.
  exact (call_without_arguments_passes_bindings_through
           {| tokens := [FunctionIdBlock None "noop"] |} util_kernel 0
           [{[ "x" := "1" ]}]
           [{| kp_name := "util"; kp_functions := {[ "noop" := noop_function ]} |}]
           None "noop" noop_function eq_refl eq_refl eq_refl).
Defined.

(** ** What the binder leaves alone *)

Lemma bind_steps_keep_bound (p0 : string) (k : string) (extras : list Token) :
  ∀ acc,
    is_Some (acc !! k) ∨ k ∈ (arg_key p0 <$> extras) →
    is_Some (foldl (bind_step p0) acc extras !! k).
Proof.
  induction extras as [|t extras IH]; intros acc H.
  - destruct H as [H|H]; [done|]. by apply elem_of_nil in H.
  - simpl. apply IH. unfold bind_step.
    destruct (decide (arg_key p0 t = k)) as [<-|Hne].
    + left. rewrite lookup_insert_eq. by eexists.
    + rewrite lookup_insert_ne by done.
      destruct H as [H|H]; [by left|right].
      rewrite fmap_cons in H. apply elem_of_cons in H as [H|H]; [congruence|done].
Qed.

(** X10. On a validated call the binder changes nothing but the names it
    writes: every other name keeps the caller's value (or stays unbound),
    every written name ends up bound, and no binding of the caller is
    removed. *)
Theorem binder_touches_only_its_keys
    (pn : option string) (fn : string) (extras : list Token)
    (kernel : Kernel) (c : loc) (md : KernelFunctionMetadata)
    (p0 : string) (params : list string) (σ : Store) :
  valid_extras extras →
  fm_parameters md = p0 :: params →
  c < length σ →
  let after :=
    contents (_enrich_function_arguments
                {| tokens := FunctionIdBlock pn fn :: extras |} kernel c md σ).2 c in
  (∀ k, k ∉ (arg_key p0 <$> extras) → after !! k = contents σ c !! k) ∧
  (∀ k, k ∈ (arg_key p0 <$> extras) → is_Some (after !! k)) ∧
  (∀ k, is_Some (contents σ c !! k) → is_Some (after !! k)).
Proof.
  intros Hv Hp Hc after. subst after.
  erewrite enrich_function_arguments_valid by done. cbn [snd].
  rewrite contents_insert_eq by done. unfold spec_bind. split_and!.
  - intros k Hk. by apply bind_steps_lookup_other.
  - intros k Hk. apply bind_steps_keep_bound. by right.
  - intros k Hk. apply bind_steps_keep_bound. by left.
Qed.

Lemma binder_touches_only_its_keys_witness :
  contents (_enrich_function_arguments {| tokens := add_call |} math_kernel 0
              (metadata add_function) [{[ "x" := "1" ]}]).2 0 !! "x" =
    contents [{[ "x" := "1" ]}] 0 !! "x".
Proof.
  destruct (binder_touches_only_its_keys None "add"
              [ValBlock "2"; NamedArgBlock "b" (OpValue "3")]
              math_kernel 0 (metadata add_function) "a" ["b"]
              [{[ "x" := "1" ]}]) as [H _].
  - split; [apply list_elem_of_here|]. by repeat constructor.
  - reflexivity.
  - simpl. lia.
  - apply H. intros Hk.
    repeat (apply elem_of_cons in Hk as [Hk|Hk]; [discriminate|]).
    by apply elem_of_nil in Hk.
Defined.

(** ** Resolution without a namespace *)

(** X11. A function id without a namespace, or with an empty one, resolves
    to the function of that name in the plugin registered first among
    those that hold the name; it resolves to nothing exactly when no
    plugin holds the name. *)
Theorem unqualified_resolution_takes_first_registered
    (ps : KernelPluginCollection) (pn : option string) (fn : string) :
  pn = None ∨ pn = Some "" →
  (∀ f, _get_function_from_plugin_collection ps pn fn = inr (Some f) ↔
        ∃ i p, ps !! i = Some p ∧ kp_functions p !! fn = Some f ∧
               ∀ j p', j < i → ps !! j = Some p' →
                       kp_functions p' !! fn = None) ∧
  (_get_function_from_plugin_collection ps pn fn = inr None ↔
   ∀ p, p ∈ ps → kp_functions p !! fn = None).
Proof.
  intros Hpn. rewrite get_function_unqualified by done.
  split; [intros f; apply scan_plugins_Some|apply scan_plugins_None].
Qed.

Lemma unqualified_resolution_takes_first_registered_witness :
  (render_code {| tokens := [FunctionIdBlock None "add"; ValBlock "hi"] |}
     two_plugin_kernel 0 [∅]).1 = inr "hi!" ∧
  ∃ f, _get_function_from_plugin_collection
         [{| kp_name := "text"; kp_functions := {[ "add" := concat_function ]} |};
          {| kp_name := "math"; kp_functions := {[ "add" := add_function ]} |}]
         (Some "") "add" = inr (Some f) ∧ fm_plugin_name (metadata f) = "text".
Proof.
  split; [reflexivity|].
  destruct (unqualified_resolution_takes_first_registered
              [{| kp_name := "text"; kp_functions := {[ "add" := concat_function ]} |};
               {| kp_name := "math"; kp_functions := {[ "add" := add_function ]} |}]
              (Some "") "add" ltac:(by right)) as [H _].
  exists concat_function. split; [|reflexivity].
  apply H. exists 0, {| kp_name := "text"; kp_functions := {[ "add" := concat_function ]} |}.
  split; [reflexivity|]. split; [reflexivity|]. intros j p' Hj. lia.
Defined.

(** X12. A function that resolves under a namespace also resolves without
    one; it resolves to the same function when no plugin of another name
    holds the function name. *)
Theorem qualified_resolution_implies_unqualified
    (ps : KernelPluginCollection) (ns fn : string) (f : KernelFunction) :
  ns ≠ "" →
  _get_function_from_plugin_collection ps (Some ns) fn = inr (Some f) →
  (∃ g, _get_function_from_plugin_collection ps None fn = inr (Some g)) ∧
  ((∀ p, p ∈ ps → kp_name p ≠ ns → kp_functions p !! fn = None) →
   _get_function_from_plugin_collection ps None fn = inr (Some f)).
Proof.
  intros Hns Hq.
  assert (∃ p, plugins_getitem ps ns = inr p ∧ kp_functions p !! fn = Some f)
    as (p & Hp & Hpf).
  { revert Hq. unfold _get_function_from_plugin_collection.
    destruct ns as [|c ns]; [done|]. cbn [String.length Nat.ltb Nat.leb].
    destruct (plugins_getitem ps _) as [?|p]; [done|].
    unfold plugin_getitem. destruct (kp_functions p !! fn) eqn:Hpf; [|done].
    intros [= <-]. by exists p. }
  clear Hq. cbn [_get_function_from_plugin_collection].
  revert Hp. unfold plugins_getitem.
  destruct (List.find _ ps) as [p'|] eqn:Hfind; [|done]. intros [= ->].
  split.
  - destruct (scan_plugins ps fn) as [err|[g|]] eqn:Hs.
    + by apply scan_plugins_no_raise in Hs.
    + by eauto.
    + apply List.find_some in Hfind as [Hin _]. apply list_elem_of_In in Hin.
      pose proof (proj1 (scan_plugins_None ps fn) Hs p Hin). congruence.
  - intros Hothers. revert Hfind.
    induction ps as [|q ps IH]; [done|]. rewrite scan_plugins_cons. simpl.
    destruct (bool_decide (kp_name q = ns)) eqn:Hname.
    + intros [= ->]. by rewrite Hpf.
    + apply bool_decide_eq_false in Hname. intros Hfind.
      rewrite (Hothers q ltac:(left) Hname).
      apply IH; [|done]. intros p' Hp'. apply Hothers. by right.
Qed.

Lemma qualified_resolution_implies_unqualified_witness :
  ∃ g, _get_function_from_plugin_collection
         [{| kp_name := "text"; kp_functions := {[ "add" := concat_function ]} |};
          {| kp_name := "math"; kp_functions := {[ "add" := add_function ]} |}]
         None "add" = inr (Some g).
Proof.
  destruct (qualified_resolution_implies_unqualified
              [{| kp_name := "text"; kp_functions := {[ "add" := concat_function ]} |};
               {| kp_name := "math"; kp_functions := {[ "add" := add_function ]} |}]
              "math" "add" add_function ltac:(discriminate) eq_refl) as [H _].
  exact H.
Defined.

(** ** Renders in sequence *)

(** Objects that exist before a render keep their contents. *)
Lemma render_code_frame (self : CodeBlock) (kernel : Kernel) (a : loc)
    (σ : Store) (l : loc) :
  l < length σ →
  (render_code self kernel a σ).2 !! l = σ !! l.
Proof.
  intros Hl.
  destruct (tokens self) as [|t0 ts] eqn:Hts;
    [by unfold render_code; rewrite Hts|].
  destruct t0 as [c|n|n o|pn fn];
    try by (unfold render_code; rewrite Hts).
  destruct (plugins kernel) as [ps|] eqn:Hps;
    [|by unfold render_code, _render_function_call; rewrite Hts, Hps].
  destruct (_get_function_from_plugin_collection ps pn fn)
    as [err|[function|]] eqn:Hf.
  - unfold render_code, _render_function_call. rewrite Hts, Hps. simpl.
    destruct ps; [done|]. by rewrite Hf.
  - erewrite render_code_resolved by done.
    destruct (bind_phase self kernel function a σ) as [[e|c] σ1] eqn:Hb;
      apply bind_phase_frame in Hb as [Hframe Hc]; [by apply Hframe|].
    specialize (Hc c eq_refl). subst c.
    destruct (invoke function _) as [r m']. simpl.
    rewrite list_lookup_insert_ne by lia. by apply Hframe.
  - unfold render_code, _render_function_call. rewrite Hts, Hps. simpl.
    destruct ps; [done|]. by rewrite Hf.
Qed.

(** X13. A variable or value block rendered after any other render against
    the same arguments object gives what the caller's bindings held before
    that render: the names the binder wrote for a function call, and
    whatever the invoked function wrote, are not seen by a later
    [{{$name}}]. *)
Theorem later_operand_sees_callers_bindings
    (self : CodeBlock) (kernel1 : Kernel)
    (toks : list Token) (e : CodeBlock) (t0 : Token) (kernel2 : Kernel)
    (a : loc) (σ : Store) :
  (parse toks).2 = inr e →
  toks !! 0 = Some t0 →
  token_type t0 ∈ [VALUE; VARIABLE] →
  a < length σ →
  (render_code e kernel2 a (render_code self kernel1 a σ).2).1 =
    inr (token_render t0 (contents σ a)).
Proof.
  intros He H0 Ht Ha.
  pose proof (parse_operand_first _ _ _ He H0 Ht) as Hts.
  destruct e as [ts]. simpl in Hts. subst ts.
  rewrite render_code_operand by done. cbn [fst].
  unfold contents. by rewrite render_code_frame.
Qed.

Lemma later_operand_sees_callers_bindings_witness :
  contents (_enrich_function_arguments {| tokens := add_call |} math_kernel 0
              (metadata add_function) [∅]).2 0 !! "a" = Some "2" ∧
  (render_code {| tokens := [VarBlock "a"] |} math_kernel 0
     (render_code {| tokens := add_call |} math_kernel 0 [∅]).2).1 = inr "".
Proof.
  split; [reflexivity|].
  exact (later_operand_sees_callers_bindings {| tokens := add_call |} math_kernel
           [VarBlock "a"] {| tokens := [VarBlock "a"] |} (VarBlock "a")
           math_kernel 0 [∅] eq_refl eq_refl
           ltac:(apply list_elem_of_further, list_elem_of_here)
           ltac:(simpl; lia)).
Defined.

(** ** Which token an error reports *)

Lemma find_not_named_first (rest : list Token) (t : Token) :
  List.find not_named rest = Some t ↔
  ∃ i, rest !! i = Some t ∧ token_type t ≠ NAMED_ARG ∧
       ∀ j t', j < i → rest !! j = Some t' → token_type t' = NAMED_ARG.
Proof.
  induction rest as [|x rest IH]; simpl.
  { split; [done|]. by intros (i & ? & _). }
  destruct (not_named x) eqn:E.
  - apply not_named_true in E. split.
    + intros [= <-]. exists 0. split_and!; [done|done|]. intros j t' Hj. lia.
    + intros ([|i] & Hi & Hn & Hbefore).
      * simpl in Hi. by injection Hi as <-.
      * destruct E. by apply (Hbefore 0 x); [lia|].
  - assert (token_type x = NAMED_ARG) as Hx.
    { destruct (decide (token_type x = NAMED_ARG)) as [|Hn]; [done|].
      apply not_named_true in Hn. congruence. }
    rewrite IH. split.
    + intros (i & Hi & Hn & Hbefore). exists (S i).
      split_and!; [done|done|]. intros [|j] t' Hj Ht'.
      * simpl in Ht'. by injection Ht' as <-.
      * apply (Hbefore j); [lia|done].
    + intros ([|i] & Hi & Hn & Hbefore).
      * simpl in Hi. injection Hi as <-. done.
      * exists i. split_and!; [done|done|]. intros j t' Hj Ht'.
        apply (Hbefore (S j)); [lia|done].
Qed.

(** X14. In a function call whose second token is acceptable, the error
    [ExpectedNamedArg] reports the type of the first token after the second
    that is not a named argument: the loop stops at the first violation and
    looks no further. *)
Theorem expected_named_arg_reports_first_offender
    (pn : option string) (fn : string) (t1 : Token) (rest : list Token)
    (got : BlockTypes) :
  token_type t1 ∈ VALID_ARG_TYPES →
  ((check_tokens (FunctionIdBlock pn fn :: t1 :: rest)).2 =
     inl (ExpectedNamedArg got) ↔
   ∃ i t, rest !! i = Some t ∧ token_type t = got ∧ got ≠ NAMED_ARG ∧
          ∀ j t', j < i → rest !! j = Some t' → token_type t' = NAMED_ARG).
Proof.
  intros H1. rewrite check_tokens_cases.
  rewrite (bool_decide_eq_true_2 _ H1).
  destruct (List.find not_named rest) as [bad|] eqn:Ef.
  - apply find_not_named_first in Ef as (i & Hi & Hn & Hbefore). split.
    + intros [= <-]. by exists i, bad.
    + intros (i' & t & Hi' & <- & Hn' & Hbefore'). do 2 f_equal.
      destruct (Nat.lt_trichotomy i i') as [Hlt|[->|Hlt]].
      * destruct Hn. by apply (Hbefore' i).
      * congruence.
      * destruct Hn'. by apply (Hbefore i').
  - split; [done|]. intros (i & t & Hi & <- & Hn & _).
    destruct Hn. by eapply find_not_named_None.
Qed.

Lemma expected_named_arg_reports_first_offender_witness :
  (check_tokens [FunctionIdBlock None "add"; ValBlock "2"; VarBlock "x";
                 ValBlock "3"]).2 = inl (ExpectedNamedArg VARIABLE).
Proof.
  destruct (expected_named_arg_reports_first_offender None "add" (ValBlock "2")
              [VarBlock "x"; ValBlock "3"] VARIABLE
              ltac:(apply list_elem_of_here)) as [_ H].
  apply H. exists 0, (VarBlock "x").
  split; [reflexivity|]. split; [reflexivity|]. split; [discriminate|].
  intros j t' Hj. lia.
Defined.
